(** * node-stockfish: the engine session and the session pool

    A shallow embedding of [src/index.ts] (the [Stockfish] session class and
    the [StockfishPool] class) together with the value types of
    [src/typings.ts], and the properties of the UCI line handling, the
    analysis aggregation and the pool bookkeeping that the specification
    states.

    Conventions of the embedding.
    - JavaScript strings are [string]s; [split(' ')], [startsWith],
      [slice(i).join(' ')] and [parseInt] are written out below.
    - A JavaScript number produced by [parseInt] is [NaN] or an integer; the
      integer is kept exact in [Z] (a double agrees with it up to 2^53, and
      the sign of a zero is not tracked).
    - An optional property ([depth?: number], a missing array slot) is an
      [option]; [a || b] is written with [js_or_*], which also replaces the
      falsy values [0], [NaN] and [''].
    - Objects with identity (sessions held by the pool, the resolver closures
      of pending promises) are references, numbered in allocation order.
    - Event emission, writes to the engine's stdin and calls of promise
      resolvers are recorded in an effect log, in program order. *)

From Stdlib Require Import ZArith String Ascii List Bool Lia DecimalString.
From stdpp Require Import base option list strings gmap.
Import ListNotations.

Local Open Scope string_scope.
Local Open Scope list_scope.

(** ** JavaScript primitives used by the session *)
Module JS.

(** [s.split(' ')]: cut at every U+0020; two adjacent separators, or a
    separator at either end, give an empty part; the result is never empty. *)
Fixpoint split_on (sep : ascii -> bool) (s : string) : list string :=
  match s with
  | EmptyString => [EmptyString]
  | String c rest =>
      if sep c then EmptyString :: split_on sep rest
      else match split_on sep rest with
           | part :: parts => String c part :: parts
           | [] => [String c EmptyString]
           end
  end.

Definition is_space (c : ascii) : bool := Ascii.eqb c " ".

Definition split (s : string) : list string := split_on is_space s.

(** [parts.slice(i).join(' ')] *)
Definition slice_join (i : nat) (parts : list string) : string :=
  String.concat " " (drop i parts).

(** [s.startsWith(p)] *)
Definition startsWith (p s : string) : bool := String.prefix p s.

(** [x || d] on a possibly missing string: [undefined] and [''] are falsy. *)
Definition js_or_str (x : option string) (d : string) : string :=
  match x with
  | Some s => if String.eqb s "" then d else s
  | None => d
  end.

Inductive number : Type :=
  | NaN
  | Int (z : Z).

(** [x || d] on a possibly missing number: [undefined], [NaN] and [0] are falsy. *)
Definition js_or_num (x : option number) (d : number) : number :=
  match x with
  | Some (Int z) => if Z.eqb z 0 then d else Int z
  | Some NaN => d
  | None => d
  end.

(** The white space [parseInt] strips from the front of its argument
    (TAB, LF, VT, FF, CR, SP). *)
Definition is_white (c : ascii) : bool :=
  let n := nat_of_ascii c in
  Nat.eqb n 9 || Nat.eqb n 10 || Nat.eqb n 11 || Nat.eqb n 12 || Nat.eqb n 13 || Nat.eqb n 32.

Fixpoint trim_start (s : string) : string :=
  match s with
  | String c rest => if is_white c then trim_start rest else s
  | EmptyString => s
  end.

(** The value of a digit in radix 36, as [parseInt] reads it. *)
Definition digit_value (c : ascii) : option Z :=
  let n := Z.of_nat (nat_of_ascii c) in
  if (48 <=? n)%Z && (n <=? 57)%Z then Some (n - 48)%Z
  else if (97 <=? n)%Z && (n <=? 122)%Z then Some (n - 87)%Z
  else if (65 <=? n)%Z && (n <=? 90)%Z then Some (n - 55)%Z
  else None.

(** The longest prefix of digits of [radix], read as a number; [acc] is what
    has been read so far ([None]: no digit yet). *)
Fixpoint digits (radix : Z) (s : string) (acc : option Z) : option Z :=
  match s with
  | String c rest =>
      match digit_value c with
      | Some d =>
          if (d <? radix)%Z then digits radix rest (Some (default 0%Z acc * radix + d)%Z)
          else acc
      | None => acc
      end
  | EmptyString => acc
  end.

(** [parseInt(s)] with no radix argument: leading white space, a sign, a
    [0x]/[0X] prefix selecting radix 16, then the longest run of digits;
    [NaN] when there is no digit. *)
Definition parseInt (s : string) : number :=
  let s1 := trim_start s in
  let '(sign, s2) :=
    match s1 with
    | String c rest =>
        if Ascii.eqb c "-" then ((-1)%Z, rest)
        else if Ascii.eqb c "+" then (1%Z, rest)
        else (1%Z, s1)
    | EmptyString => (1%Z, s1)
    end in
  let '(radix, s3) :=
    match s2 with
    | String c0 (String c1 rest) =>
        if Ascii.eqb c0 "0" && (Ascii.eqb c1 "x" || Ascii.eqb c1 "X") then (16%Z, rest)
        else (10%Z, s2)
    | _ => (10%Z, s2)
    end in
  match digits radix s3 None with
  | Some n => Int (sign * n)
  | None => NaN
  end.

(** [`${n}`] for an integer [n] that a number holds exactly (at most 2^53
    in absolute value): its decimal digits, with a minus sign when
    negative. *)
Definition to_string (n : Z) : string := NilEmpty.string_of_int (Z.to_int n).

(** [s.trim()]: white space (line terminators included) is removed from
    both ends; as for [parseInt], the white space is the ASCII one
    ([is_white]). *)
Fixpoint trim_end (s : string) : string :=
  match s with
  | EmptyString => EmptyString
  | String c rest =>
      match trim_end rest with
      | EmptyString => if is_white c then EmptyString else String c EmptyString
      | kept => String c kept
      end
  end.

Definition trim (s : string) : string := trim_end (trim_start s).

Definition is_newline (c : ascii) : bool := Nat.eqb (nat_of_ascii c) 10.

(** The strings of ASCII characters only. On these [trim] is [s.trim()]
    exactly: the white space and line terminators [s.trim()] removes beyond
    [is_white] (U+00A0, U+FEFF, U+2028, ...) are all outside ASCII. *)
Fixpoint is_ascii (s : string) : bool :=
  match s with
  | EmptyString => true
  | String c rest => (nat_of_ascii c <? 128)%nat && is_ascii rest
  end.

(** [s.split('\n')] *)
Definition split_lines (s : string) : list string := split_on is_newline s.

End JS.

(** ** Values exchanged with the engine ([src/typings.ts]) *)
Module Typings.

(** [StockfishInfo['score']] and [StockfishLine['score']]. The parser stores
    the kind token uncast, so [type] is whatever string followed [score]. *)
Record Score : Type := mkScore {
  type : string;
  value : JS.number
}.

(** [StockfishInfo]: every property but [pv] may be missing at run time
    ([depth] too: the parser only sets it when it meets the key). *)
Record StockfishInfo : Type := mkInfo {
  info_depth : option JS.number;
  info_seldepth : option JS.number;
  info_time : option JS.number;
  info_nodes : option JS.number;
  info_pv : string;
  info_score : option Score;
  info_nps : option JS.number;
  info_hashfull : option JS.number;
  info_cpuload : option JS.number;
  info_multipv : option JS.number
}.

(** [StockfishLine] *)
Record StockfishLine : Type := mkLine {
  line_pv : string;
  line_score : Score;
  line_depth : option JS.number;
  line_nodes : JS.number;
  line_time : JS.number;
  line_nps : JS.number
}.

(** [StockfishAnalysis]. [lines] is a JavaScript array written by index
    only; an assignment [lines[k] = v] creates the slot [k] whatever [k] is,
    so the array is a finite map from integers to lines. *)
Record StockfishAnalysis : Type := mkAnalysis {
  bestmove : string;
  ponder : option string;
  lines : gmap Z StockfishLine
}.

End Typings.
Export Typings.

(** ** The engine session ([class Stockfish]) *)
Module Engine.

(** *** [#parseInfo] *)

(** [const info: any = { pv: '' }] *)
Definition empty_info : StockfishInfo :=
  mkInfo None None None None "" None None None None None.

Definition set_depth (v : JS.number) (i : StockfishInfo) : StockfishInfo :=
  mkInfo (Some v) (info_seldepth i) (info_time i) (info_nodes i) (info_pv i)
         (info_score i) (info_nps i) (info_hashfull i) (info_cpuload i) (info_multipv i).
Definition set_seldepth (v : JS.number) (i : StockfishInfo) : StockfishInfo :=
  mkInfo (info_depth i) (Some v) (info_time i) (info_nodes i) (info_pv i)
         (info_score i) (info_nps i) (info_hashfull i) (info_cpuload i) (info_multipv i).
Definition set_time (v : JS.number) (i : StockfishInfo) : StockfishInfo :=
  mkInfo (info_depth i) (info_seldepth i) (Some v) (info_nodes i) (info_pv i)
         (info_score i) (info_nps i) (info_hashfull i) (info_cpuload i) (info_multipv i).
Definition set_nodes (v : JS.number) (i : StockfishInfo) : StockfishInfo :=
  mkInfo (info_depth i) (info_seldepth i) (info_time i) (Some v) (info_pv i)
         (info_score i) (info_nps i) (info_hashfull i) (info_cpuload i) (info_multipv i).
Definition set_pv (v : string) (i : StockfishInfo) : StockfishInfo :=
  mkInfo (info_depth i) (info_seldepth i) (info_time i) (info_nodes i) v
         (info_score i) (info_nps i) (info_hashfull i) (info_cpuload i) (info_multipv i).
Definition set_score (v : Score) (i : StockfishInfo) : StockfishInfo :=
  mkInfo (info_depth i) (info_seldepth i) (info_time i) (info_nodes i) (info_pv i)
         (Some v) (info_nps i) (info_hashfull i) (info_cpuload i) (info_multipv i).
Definition set_nps (v : JS.number) (i : StockfishInfo) : StockfishInfo :=
  mkInfo (info_depth i) (info_seldepth i) (info_time i) (info_nodes i) (info_pv i)
         (info_score i) (Some v) (info_hashfull i) (info_cpuload i) (info_multipv i).
Definition set_hashfull (v : JS.number) (i : StockfishInfo) : StockfishInfo :=
  mkInfo (info_depth i) (info_seldepth i) (info_time i) (info_nodes i) (info_pv i)
         (info_score i) (info_nps i) (Some v) (info_cpuload i) (info_multipv i).
Definition set_cpuload (v : JS.number) (i : StockfishInfo) : StockfishInfo :=
  mkInfo (info_depth i) (info_seldepth i) (info_time i) (info_nodes i) (info_pv i)
         (info_score i) (info_nps i) (info_hashfull i) (Some v) (info_multipv i).
Definition set_multipv (v : JS.number) (i : StockfishInfo) : StockfishInfo :=
  mkInfo (info_depth i) (info_seldepth i) (info_time i) (info_nodes i) (info_pv i)
         (info_score i) (info_nps i) (info_hashfull i) (info_cpuload i) (Some v).

(** The [case] labels of the [switch] in [#parseInfo]. *)
Inductive InfoKey : Type :=
  | KDepth | KSeldepth | KTime | KNodes | KNps | KHashfull | KCpuload | KMultipv
  | KScore | KPv.

Definition key_name (k : InfoKey) : string :=
  match k with
  | KDepth => "depth" | KSeldepth => "seldepth" | KTime => "time"
  | KNodes => "nodes" | KNps => "nps" | KHashfull => "hashfull"
  | KCpuload => "cpuload" | KMultipv => "multipv" | KScore => "score" | KPv => "pv"
  end.

Definition info_keys : list InfoKey :=
  [KDepth; KSeldepth; KTime; KNodes; KNps; KHashfull; KCpuload; KMultipv; KScore; KPv].

(** The keys the parser recognizes, by name. *)
Definition recognized_keys : list string := key_name <$> info_keys.

(** [switch (parts[i])]: the label equal to the token, if there is one. *)
Definition switch_key (token : string) : option InfoKey :=
  List.find (fun k => String.eqb token (key_name k)) info_keys.

(** One turn of the [for] loop at index [i]: the [switch] statement. The
    result is the value of [i] when the [switch] is left (the loop's own
    [i++] is still to come) and the updated [info]. A token that matches no
    label falls through the [switch]: nothing changes. *)
Definition parseInfo_switch (parts : list string) (i : nat) (info : StockfishInfo)
  : nat * StockfishInfo :=
  let valueStr := JS.js_or_str (parts !! (i + 1)) "" in
  match parts !! i ≫= switch_key with
  | Some KDepth => (i + 1, set_depth (JS.parseInt valueStr) info)
  | Some KSeldepth => (i + 1, set_seldepth (JS.parseInt valueStr) info)
  | Some KTime => (i + 1, set_time (JS.parseInt valueStr) info)
  | Some KNodes => (i + 1, set_nodes (JS.parseInt valueStr) info)
  | Some KNps => (i + 1, set_nps (JS.parseInt valueStr) info)
  | Some KHashfull => (i + 1, set_hashfull (JS.parseInt valueStr) info)
  | Some KCpuload => (i + 1, set_cpuload (JS.parseInt valueStr) info)
  | Some KMultipv => (i + 1, set_multipv (JS.parseInt valueStr) info)
  | Some KScore =>
      let scoreValue := JS.js_or_str (parts !! (i + 2)) "" in
      (i + 2, set_score (mkScore valueStr (JS.parseInt scoreValue)) info)
  | Some KPv => (length parts, set_pv (JS.slice_join (i + 1) parts) info)
  | None => (i, info)
  end.

(** [for (let i = ...; i < parts.length; i++) { switch ... }], entered with
    the loop variable equal to [i]. [fuel] bounds the number of turns; the
    result is [None] only when the fuel runs out before the loop condition
    fails. *)
Fixpoint parseInfo_loop (fuel : nat) (parts : list string) (i : nat) (info : StockfishInfo)
  : option StockfishInfo :=
  if (length parts <=? i)%nat then Some info
  else match fuel with
       | O => None
       | S fuel' =>
           let '(i', info') := parseInfo_switch parts i info in
           parseInfo_loop fuel' parts (i' + 1) info'
       end.

(** [#parseInfo(line): StockfishInfo | null]. The loop starts at token 1 and
    every turn advances [i], so [parts.length] turns are enough. *)
Definition parseInfo (line : string) : option StockfishInfo :=
  let parts := JS.split line in
  parseInfo_loop (length parts) parts 1 empty_info.

(** *** The session object *)

(** The resolve/reject pair of the promise returned by [analyze], by identity. *)
Definition Resolver : Type := nat.

(** The handle returned by [spawn]. *)
Inductive ChildProcess : Type := child_process.

(** State of the promise returned by [#initialize]. *)
Inductive PromiseState : Type := Pending | Fulfilled.

(** The private fields of [class Stockfish]. *)
Record Stockfish : Type := mkStockfish {
  process : option ChildProcess;
  readyPromise : PromiseState;
  isReady : bool;
  analysisPromise : option Resolver;
  currentAnalysis : option StockfishAnalysis
}.

(** What a method does to the outside, in program order. *)
Inductive Effect : Type :=
  | Emit_output (line : string)            (* this.emit('output', line) *)
  | Emit_info (info : StockfishInfo)       (* this.emit('info', info) *)
  | Emit_ready                             (* this.emit('ready') *)
  | Emit_error (message : string)          (* this.emit('error', err) *)
  | Resolve (r : Resolver) (result : StockfishAnalysis)  (* #analysisPromise.resolve(..) *)
  | On_output (target : string)            (* waitOutput(target): a one-shot listener *)
  | Stdin_write (data : string)            (* #process.stdin.write(data) *)
  | Kill.                                  (* #process.kill() *)

(** What an [await]ing caller observes of an [async] method that is run up
    to its first suspension that cannot be passed. *)
Inductive Wait : Type :=
  | Await_ready
  | Await_output (target : string).

Inductive Completion (A : Type) : Type :=
  | Returned (a : A)
  | Thrown (message : string)
  | Suspended (w : Wait).
Arguments Returned {A} a.
Arguments Thrown {A} message.
Arguments Suspended {A} w.

Definition newline : string := String (ascii_of_nat 10) EmptyString.

Definition set_isReady (b : bool) (st : Stockfish) : Stockfish :=
  mkStockfish (process st) (readyPromise st) b (analysisPromise st) (currentAnalysis st).
Definition set_process (p : option ChildProcess) (st : Stockfish) : Stockfish :=
  mkStockfish p (readyPromise st) (isReady st) (analysisPromise st) (currentAnalysis st).
Definition set_readyPromise (p : PromiseState) (st : Stockfish) : Stockfish :=
  mkStockfish (process st) p (isReady st) (analysisPromise st) (currentAnalysis st).
Definition set_analysisPromise (r : option Resolver) (st : Stockfish) : Stockfish :=
  mkStockfish (process st) (readyPromise st) (isReady st) r (currentAnalysis st).
Definition set_currentAnalysis (a : option StockfishAnalysis) (st : Stockfish) : Stockfish :=
  mkStockfish (process st) (readyPromise st) (isReady st) (analysisPromise st) a.

(** *** [#handleOutput] *)

(** [info.multipv || 1]; the result is a non-zero integer. *)
Definition multipv_or_1 (info : StockfishInfo) : Z :=
  match JS.js_or_num (info_multipv info) (JS.Int 1) with
  | JS.Int z => z
  | JS.NaN => 1
  end.

(** The object literal stored by [#handleOutput] for an info event. *)
Definition line_of_info (info : StockfishInfo) : StockfishLine :=
  mkLine (info_pv info)
         (default (mkScore "cp" (JS.Int 0)) (info_score info))
         (info_depth info)
         (JS.js_or_num (info_nodes info) (JS.Int 0))
         (JS.js_or_num (info_time info) (JS.Int 0))
         (JS.js_or_num (info_nps info) (JS.Int 0)).

(** [#currentAnalysis.lines[index] = { ... }] with [index = multipv - 1]. *)
Definition fold_info (info : StockfishInfo) (a : StockfishAnalysis) : StockfishAnalysis :=
  let multipv := multipv_or_1 info in
  let index := (multipv - 1)%Z in
  mkAnalysis (bestmove a) (ponder a) (<[index := line_of_info info]> (lines a)).

(** The assignments of the [bestmove] branch to the analysis object. *)
Definition finish_analysis (parts : list string) (a : StockfishAnalysis) : StockfishAnalysis :=
  let a1 := mkAnalysis (JS.js_or_str (parts !! 1) "") (ponder a) (lines a) in
  if bool_decide (parts !! 2 = Some "ponder")
  then mkAnalysis (bestmove a1) (parts !! 3) (lines a1)
  else a1.

Definition handleOutput (line : string) (st : Stockfish) : Stockfish * list Effect :=
  let emitted := [Emit_output line] in
  if JS.startsWith "info" line then
    match parseInfo line with
    | Some info =>
        match currentAnalysis st with
        | Some a =>
            (set_currentAnalysis (Some (fold_info info a)) st, emitted ++ [Emit_info info])
        | None => (st, emitted ++ [Emit_info info])
        end
    | None => (st, emitted)
    end
  else if JS.startsWith "bestmove" line then
    match analysisPromise st, currentAnalysis st with
    | Some r, Some a =>
        let parts := JS.split line in
        let result := finish_analysis parts a in
        (set_currentAnalysis None (set_analysisPromise None st),
         emitted ++ [Resolve r result])
    | _, _ => (st, emitted)
    end
  else (st, emitted).

(** *** [waitReady], [send], [analyze], [terminate] *)

Definition waitReady (st : Stockfish) : Completion unit :=
  if isReady st then Returned tt
  else match readyPromise st with
       | Fulfilled => Returned tt
       | Pending => Suspended Await_ready
       end.

(** The acknowledgement [send] waits for, if any. *)
Definition send_target (command : string) : option string :=
  if String.eqb command "uci" then Some "uciok"
  else if String.eqb command "isready" then Some "readyok"
  else None.

(** [send(command)]. It reads the session's fields and changes none. *)
Definition send (command : string) (st : Stockfish) : list Effect * Completion unit :=
  match (if String.eqb command "uci" then Returned tt else waitReady st) with
  | Returned _ =>
      let target := send_target command in
      let listening := match target with Some t => [On_output t] | None => [] end in
      match process st with
      | None => (listening, Thrown "Engine process stdin is not available")
      | Some _ =>
          (listening ++ [Stdin_write (command +:+ newline)],
           match target with
           | Some t => Suspended (Await_output t)
           | None => Returned tt
           end)
      end
  | Thrown m => ([], Thrown m)
  | Suspended w => ([], Suspended w)
  end.

(** The executor of the promise [analyze] returns: it installs a fresh
    analysis with the promise's resolver [r], sends the position and, once
    that [send] has returned, the [go] command (whose own completion is not
    awaited). *)
Definition analyze_executor (fen : string) (depth : Z) (r : Resolver) (st : Stockfish)
  : Stockfish * list Effect :=
  let st' :=
    set_analysisPromise (Some r) (set_currentAnalysis (Some (mkAnalysis "" None ∅)) st) in
  let '(sent_position, done) := send ("position fen " +:+ fen) st' in
  let sent_go :=
    match done with
    | Returned _ => fst (send ("go depth " +:+ JS.to_string depth) st')
    | _ => []
    end in
  (st', sent_position ++ sent_go).

(** [analyze(fen, depth, multipv)], run without other callbacks in between
    its awaits; [r] names the resolver of the promise it creates. *)
Definition analyze (fen : string) (depth multipv : Z) (r : Resolver) (st : Stockfish)
  : Stockfish * list Effect * Completion Resolver :=
  match waitReady st with
  | Returned _ =>
      match analysisPromise st with
      | Some _ => (st, [], Thrown "Analysis already in progress")
      | None =>
          let '(sent_option, done) :=
            send ("setoption name MultiPV value " +:+ JS.to_string multipv) st in
          match done with
          | Returned _ =>
              let '(st', sent) := analyze_executor fen depth r st in
              (st', sent_option ++ sent, Returned r)
          | Thrown m => (st, sent_option, Thrown m)
          | Suspended w => (st, sent_option, Suspended w)
          end
      end
  | Thrown m => (st, [], Thrown m)
  | Suspended w => (st, [], Suspended w)
  end.

Definition terminate (st : Stockfish) : Stockfish * list Effect :=
  match process st with
  | Some _ => (set_isReady false (set_process None st), [Kill])
  | None => (set_isReady false st, [])
  end.

(** *** Construction and the callbacks registered by [#initialize] *)

(** [new Stockfish()]: the process is spawned and the handshake is sent. *)
Definition new_Stockfish : Stockfish * list Effect :=
  let st := mkStockfish (Some child_process) Pending false None None in
  (st, fst (send "uci" st)).

(** The rest of [#initialize] once ['uciok'] has been received. *)
Definition initialize_done (st : Stockfish) : Stockfish * list Effect :=
  (set_readyPromise Fulfilled (set_isReady true st), [Emit_ready]).

(** [#process.on('exit', code => ...)], on a session with a listener for
    ['error'] registered (the pool registers one on every member), so that
    [emit] returns. *)
Definition on_exit (code : option Z) (st : Stockfish) : Stockfish * list Effect :=
  (set_isReady false st,
   match code with
   | Some c =>
       if Z.eqb c 0 then []
       else [Emit_error ("Engine process exited with code " +:+ JS.to_string c)]
   | None => []
   end).

(** [#process.on('error', err => ...)] *)
Definition on_error (message : string) (st : Stockfish) : Stockfish * list Effect :=
  (st, [Emit_error message]).

(** The callbacks that can run on a session, one at a time. The executor of
    [analyze] runs only after an [await this.waitReady()] has been passed,
    which leaves the handshake promise fulfilled for good. *)
Inductive step : Stockfish -> list Effect -> Stockfish -> Prop :=
  | step_handshake st :
      readyPromise st = Pending ->
      step st (snd (initialize_done st)) (fst (initialize_done st))
  | step_output line st :
      step st (snd (handleOutput line st)) (fst (handleOutput line st))
  | step_exit code st :
      step st (snd (on_exit code st)) (fst (on_exit code st))
  | step_error message st :
      step st (snd (on_error message st)) (fst (on_error message st))
  | step_terminate st :
      step st (snd (terminate st)) (fst (terminate st))
  | step_executor fen depth r st :
      readyPromise st = Fulfilled ->
      step st (snd (analyze_executor fen depth r st)) (fst (analyze_executor fen depth r st)).

(** The states a session goes through after its construction. *)
Inductive reachable : Stockfish -> Prop :=
  | reachable_new : reachable (fst new_Stockfish)
  | reachable_step st effects st' : reachable st -> step st effects st' -> reachable st'.

(** *** The spec's reading of the best-move line: tokens separated by white space *)

Definition tab : string := String (ascii_of_nat 9) EmptyString.

(** The tokens of a line when it is split on white space, as the
    specification words the best-move rule: every character [JS.is_white]
    lists separates two tokens. *)
Definition split_whitespace_spec (line : string) : list string :=
  JS.split_on JS.is_white line.

(** *** The stream handlers registered by [#initialize] *)

(** The body of the [for (const line of lines)] loop of the ['data']
    handlers of stdout and stderr: each line is trimmed and, unless it is
    empty, handed to [#handleOutput]. *)
Fixpoint on_lines (lines : list string) (st : Stockfish) : Stockfish * list Effect :=
  match lines with
  | [] => (st, [])
  | line :: rest =>
      let trimmed := JS.trim line in
      if String.eqb trimmed "" then on_lines rest st
      else
        let '(st1, effects) := handleOutput trimmed st in
        let '(st2, more) := on_lines rest st1 in
        (st2, effects ++ more)
  end.

(** [#process.stdout.on('data', data => ...)] (and the same for stderr);
    [data] is [data.toString()]. *)
Definition on_data (data : string) (st : Stockfish) : Stockfish * list Effect :=
  on_lines (JS.split_lines data) st.

(** *** [waitOutput] *)

(** The test of the listener [waitOutput(target)] registers. *)
Definition waitOutput_matches (target line : string) : bool :=
  String.eqb line target || JS.startsWith (target +:+ " ") line.

(** A listener registered by [waitOutput]: its target and the resolver of
    the promise it returned, by identity. *)
Definition Listener : Type := (string * nat)%type.

(** What [this.emit('output', line)] does to the listeners registered by
    [waitOutput], given in registration order: every listener whose test
    passes removes itself and resolves its promise with the line. The result
    is the listeners left and the resolvers called, in order. *)
Definition emit_to_listeners (line : string) (listeners : list Listener)
  : list Listener * list nat :=
  (filter (λ l, waitOutput_matches l.1 line = false) listeners,
   snd <$> filter (λ l, waitOutput_matches l.1 line = true) listeners).

(** A sequence of output lines, emitted one after the other. *)
Fixpoint emit_lines_to_listeners (lines : list string) (listeners : list Listener)
  : list Listener * list nat :=
  match lines with
  | [] => (listeners, [])
  | line :: rest =>
      let '(waiting, resolved) := emit_to_listeners line listeners in
      let '(waiting', more) := emit_lines_to_listeners rest waiting in
      (waiting', resolved ++ more)
  end.

(** *** [setOptions] *)

(** [setOptions(options)], run without other callbacks in between its
    awaits. [entries] is [Object.entries(options)] with every value already
    converted to the string the template literal gives. *)
Fixpoint setOptions (entries : list (string * string)) (st : Stockfish)
  : list Effect * Completion unit :=
  match entries with
  | [] => ([], Returned tt)
  | (key, value) :: rest =>
      let '(sent, done) := send ("setoption name " +:+ key +:+ " value " +:+ value) st in
      match done with
      | Returned _ =>
          let '(more, done') := setOptions rest st in
          (sent ++ more, done')
      | Thrown m => (sent, Thrown m)
      | Suspended w => (sent, Suspended w)
      end
  end.

(** *** [analyze], one segment at a time *)

(** The awaits of [analyze] cut it in three segments, each run in the state
    the session has when it is resumed: [waitReady]; then the segment below;
    then [analyze_executor]. This is the middle one: the test of
    [#analysisPromise] and the awaited [send] of the MultiPV option. It
    assigns no field of the session. [multipv] is the text the template
    literal gives for the argument. *)
Definition analyze_guard (multipv : string) (st : Stockfish) : list Effect * Completion unit :=
  match analysisPromise st with
  | Some _ => ([], Thrown "Analysis already in progress")
  | None => send ("setoption name MultiPV value " +:+ multipv) st
  end.

(** The executor, with the text the template literal gives for [depth]. *)
Definition analyze_install (fen depth : string) (r : Resolver) (st : Stockfish)
  : Stockfish * list Effect :=
  let st' :=
    set_analysisPromise (Some r) (set_currentAnalysis (Some (mkAnalysis "" None ∅)) st) in
  let '(sent_position, done) := send ("position fen " +:+ fen) st' in
  let sent_go :=
    match done with
    | Returned _ => fst (send ("go depth " +:+ depth) st')
    | _ => []
    end in
  (st', sent_position ++ sent_go).

(** Output lines handed to [#handleOutput] one after the other. *)
Fixpoint handleOutputs (lines : list string) (st : Stockfish) : Stockfish * list Effect :=
  match lines with
  | [] => (st, [])
  | line :: rest =>
      let '(st1, effects) := handleOutput line st in
      let '(st2, more) := handleOutputs rest st1 in
      (st2, effects ++ more)
  end.

End Engine.

(** ** The session pool ([class StockfishPool]) *)
Module Pool.

(** A [Stockfish] object held by the pool, by identity. *)
Definition EngineRef : Type := nat.

(** The [resolve] function of the promise a blocked [acquire] returned, by
    identity. *)
Definition Waiter : Type := nat.

(** The private fields of [class StockfishPool], and the two allocation
    counters that give [new Stockfish()] and [new Promise(..)] fresh
    identities. *)
Record StockfishPool : Type := mkPool {
  free : list EngineRef;
  queue : list Waiter;
  all : gset EngineRef;
  next_engine : EngineRef;
  next_waiter : Waiter
}.

(** What [acquire] gives its caller: a promise already resolved with a
    session, or a pending promise whose resolver was queued. *)
Inductive Acquired : Type :=
  | Resolved (engine : EngineRef)
  | Queued (resolve : Waiter).

(** How a call of [engine.terminate()] ends, as its caller sees it. *)
Inductive Outcome : Type := Normal | Throws.

Inductive Effect : Type :=
  | Spawn (engine : EngineRef)                        (* new Stockfish() *)
  | Terminate_engine (engine : EngineRef)             (* engine.terminate() is called *)
  | Resolve_waiter (resolve : Waiter) (engine : EngineRef)  (* resolve(engine) *)
  | Acquire_returns (a : Acquired).

Definition set_free (l : list EngineRef) (p : StockfishPool) : StockfishPool :=
  mkPool l (queue p) (all p) (next_engine p) (next_waiter p).
Definition set_queue (q : list Waiter) (p : StockfishPool) : StockfishPool :=
  mkPool (free p) q (all p) (next_engine p) (next_waiter p).

(** [#makeAvailable(engine)] *)
Definition makeAvailable (engine : EngineRef) (p : StockfishPool)
  : StockfishPool * list Effect :=
  match queue p with
  | resolve :: waiting => (set_queue waiting p, [Resolve_waiter resolve engine])
  | [] => (set_free (free p ++ [engine]) p, [])
  end.

(** [#addWorker()]. The ['error'] listener it registers is the callback
    [on_engine_error] below. *)
Definition addWorker (p : StockfishPool) : StockfishPool * list Effect :=
  let engine := next_engine p in
  let p1 := mkPool (free p) (queue p) ({[engine]} ∪ all p) (S engine) (next_waiter p) in
  let '(p2, handed) := makeAvailable engine p1 in
  (p2, Spawn engine :: handed).

(** [try { deadEngine.terminate() } catch (e) { /* ignore */ }] *)
Definition try_ignore (o : Outcome) : Outcome :=
  match o with
  | Normal => Normal
  | Throws => Normal
  end.

(** [#replaceWorker(deadEngine)]; [o] is how [deadEngine.terminate()] ends. *)
Definition replaceWorker (deadEngine : EngineRef) (o : Outcome) (p : StockfishPool)
  : StockfishPool * list Effect * Outcome :=
  let p1 :=
    mkPool (filter (λ e, e ≠ deadEngine) (free p)) (queue p) (all p ∖ {[deadEngine]})
           (next_engine p) (next_waiter p) in
  match try_ignore o with
  | Normal =>
      let '(p2, added) := addWorker p1 in
      (p2, Terminate_engine deadEngine :: added, Normal)
  | Throws => (p1, [Terminate_engine deadEngine], Throws)
  end.

(** [for (let i = 0; i < size; i++) this.#addWorker()] *)
Fixpoint add_workers (size : nat) (p : StockfishPool) : StockfishPool * list Effect :=
  match size with
  | O => (p, [])
  | S size' =>
      let '(p1, added) := addWorker p in
      let '(p2, more) := add_workers size' p1 in
      (p2, added ++ more)
  end.

Definition empty_pool : StockfishPool := mkPool [] [] ∅ 0 0.

(** [new StockfishPool(size)] *)
Definition new_StockfishPool (size : nat) : StockfishPool * list Effect :=
  add_workers size empty_pool.

(** [acquire()] *)
Definition acquire (p : StockfishPool) : StockfishPool * Acquired :=
  match last (free p) with
  | Some engine => (set_free (removelast (free p)) p, Resolved engine)
  | None =>
      let resolve := next_waiter p in
      (mkPool (free p) (queue p ++ [resolve]) (all p) (next_engine p) (S resolve),
       Queued resolve)
  end.

(** [release(engine)] *)
Definition release (engine : EngineRef) (p : StockfishPool) : StockfishPool * list Effect :=
  if bool_decide (engine ∈ all p) then makeAvailable engine p else (p, []).

(** [this.#all.forEach((e) => e.terminate())] over the members in iteration
    order; an exception leaves the loop. *)
Fixpoint terminate_each (throws : EngineRef -> bool) (members : list EngineRef)
  : list Effect * Outcome :=
  match members with
  | [] => ([], Normal)
  | e :: rest =>
      if throws e then ([Terminate_engine e], Throws)
      else let '(effects, o) := terminate_each throws rest in
           (Terminate_engine e :: effects, o)
  end.

(** [terminate()]; [throws e] tells whether [e.terminate()] throws. The
    members are visited in the order of [elements] (the source visits them in
    insertion order; only the order of the [Terminate_engine] effects depends
    on it). *)
Definition terminate (throws : EngineRef -> bool) (p : StockfishPool)
  : StockfishPool * list Effect * Outcome :=
  match terminate_each throws (elements (all p)) with
  | (effects, Normal) =>
      (mkPool [] [] ∅ (next_engine p) (next_waiter p), effects, Normal)
  | (effects, Throws) => (p, effects, Throws)
  end.

(** The ['error'] listener of a session created by [#addWorker]. *)
Definition on_engine_error (engine : EngineRef) (o : Outcome) (p : StockfishPool)
  : StockfishPool * list Effect :=
  fst (replaceWorker engine o p).

(** The ways into the pool after its construction: the three public methods
    that touch its fields, and the error listener of a session. *)
Inductive Call : Type :=
  | Acquire
  | Release (engine : EngineRef)
  | Terminate (throws : EngineRef -> bool)
  | Engine_error (engine : EngineRef) (o : Outcome).

Definition call (c : Call) (p : StockfishPool) : StockfishPool * list Effect :=
  match c with
  | Acquire => let '(p', a) := acquire p in (p', [Acquire_returns a])
  | Release engine => release engine p
  | Terminate throws => fst (terminate throws p)
  | Engine_error engine o => on_engine_error engine o p
  end.

(** An error listener exists only on a session the pool has created; the
    public methods can be called at any time with any argument. *)
Definition enabled (c : Call) (p : StockfishPool) : Prop :=
  match c with
  | Engine_error engine _ => engine < next_engine p
  | _ => True
  end.

(** A sequence of calls, one after the other, with the effects of all. *)
Fixpoint run (calls : list Call) (p : StockfishPool) : StockfishPool * list Effect :=
  match calls with
  | [] => (p, [])
  | c :: rest =>
      let '(p1, effects) := call c p in
      let '(p2, more) := run rest p1 in
      (p2, effects ++ more)
  end.

(** The states of a pool after its construction. *)
Inductive reachable : StockfishPool -> Prop :=
  | reachable_new size : reachable (fst (new_StockfishPool size))
  | reachable_call c p : reachable p -> enabled c p -> reachable (fst (call c p)).

(** The bookkeeping invariant: the references held were allocated earlier,
    and a free session and a queued waiter never coexist. *)
Definition well_formed (p : StockfishPool) : Prop :=
  (forall e, e ∈ all p -> e < next_engine p)
  /\ (forall e, e ∈ free p -> e < next_engine p)
  /\ (forall w, w ∈ queue p -> w < next_waiter p)
  /\ (free p = [] \/ queue p = []).

(** Whether a call is one of the public methods. *)
Definition is_method (c : Call) : bool :=
  match c with
  | Engine_error _ _ => false
  | _ => true
  end.

(** The resolvers called in an effect log, in the order of the calls. *)
Definition resolved_waiters (effects : list Effect) : list Waiter :=
  omap (λ effect, match effect with Resolve_waiter w _ => Some w | _ => None end) effects.

End Pool.

(** * Properties of the session *)
Module EngineProofs.
Import Engine.

(** ** The primitives on sample inputs *)

Example split_keeps_empty_parts : JS.split "a  b c" = ["a"; ""; "b"; "c"].
Proof. reflexivity. Qed.

Example parseInt_samples :
  JS.parseInt "34" = JS.Int 34 /\ JS.parseInt "-3" = JS.Int (-3) /\
  JS.parseInt "cp" = JS.NaN /\ JS.parseInt "" = JS.NaN /\
  JS.parseInt "12abc" = JS.Int 12 /\ JS.parseInt "0x1f" = JS.Int 31.
Proof. repeat split; reflexivity. Qed.

Example to_string_samples : JS.to_string 12 = "12" /\ JS.to_string 0 = "0".
Proof. split; reflexivity. Qed.

Lemma js_or_str_empty (x : option string) : JS.js_or_str x "" = default "" x.
Proof.
  destruct x as [s|]; simpl; [|reflexivity].
  destruct (String.eqb_spec s ""); congruence.
Qed.

Lemma split_nonempty (s : string) : JS.split s <> [].
Proof.
  unfold JS.split. destruct s as [|c s]; simpl; [discriminate|].
  destruct (JS.is_space c); [discriminate|].
  destruct (JS.split_on JS.is_space s); discriminate.
Qed.

(** ** The [switch] of [#parseInfo] *)

Lemma switch_key_name (token : string) (k : InfoKey) :
  switch_key token = Some k -> token = key_name k.
Proof.
  unfold switch_key. intros H. apply find_some in H as [_ H].
  by apply String.eqb_eq.
Qed.

Lemma switch_key_unrecognized (token : string) :
  token ∉ recognized_keys -> switch_key token = None.
Proof.
  intros Hnot. destruct (switch_key token) as [k|] eqn:Hk; [|reflexivity].
  exfalso. apply Hnot. apply switch_key_name in Hk as ->.
  unfold recognized_keys. apply list_elem_of_fmap_2.
  destruct k; unfold info_keys; set_solver.
Qed.

Lemma switch_key_recognized (token : string) :
  token ∈ recognized_keys -> is_Some (switch_key token).
Proof.
  unfold recognized_keys. intros (k & -> & _)%list_elem_of_fmap.
  destruct k; by eexists.
Qed.

(** The [switch] never moves the loop variable backwards. *)
Lemma parseInfo_switch_advances parts i info :
  i < length parts -> i <= fst (parseInfo_switch parts i info).
Proof.
  intros Hi. unfold parseInfo_switch.
  destruct (parts !! i ≫= switch_key) as [[]|]; simpl; lia.
Qed.

(** The loop ends within the fuel [#parseInfo] gives it. *)
Lemma parseInfo_loop_ends fuel parts i info :
  length parts <= i + fuel -> is_Some (parseInfo_loop fuel parts i info).
Proof.
  revert i info. induction fuel as [|fuel IH]; intros i info Hlen; simpl.
  - destruct (Nat.leb_spec (length parts) i); [by eexists | lia].
  - destruct (Nat.leb_spec (length parts) i) as [|Hi]; [by eexists|].
    pose proof (parseInfo_switch_advances parts i info Hi) as Hadv.
    destruct (parseInfo_switch parts i info) as [i' info']; simpl in Hadv.
    apply IH. lia.
Qed.

Lemma parseInfo_total line : is_Some (parseInfo line).
Proof. unfold parseInfo. apply parseInfo_loop_ends. lia. Qed.

(** More fuel than needed does not change the result. *)
Lemma parseInfo_loop_fuel fuel fuel' parts i info result :
  parseInfo_loop fuel parts i info = Some result -> fuel <= fuel' ->
  parseInfo_loop fuel' parts i info = Some result.
Proof.
  revert fuel' i info. induction fuel as [|fuel IH]; intros fuel' i info; simpl.
  - destruct (Nat.leb_spec (length parts) i) as [Hi|Hi]; [|discriminate].
    intros H _. destruct fuel'; simpl; destruct (Nat.leb_spec (length parts) i); done || lia.
  - destruct (Nat.leb_spec (length parts) i) as [Hi|Hi].
    + intros H _. destruct fuel'; simpl; destruct (Nat.leb_spec (length parts) i); done || lia.
    + intros H Hle. destruct fuel' as [|fuel']; [lia|]. simpl.
      destruct (Nat.leb_spec (length parts) i); [lia|].
      destruct (parseInfo_switch parts i info) as [i' info'].
      apply IH; [done | lia].
Qed.

(** A property of [info] that only the [case] of key [k0] can change is kept
    by a turn of the loop at a token other than [k0]'s name. *)
Lemma parseInfo_switch_keeps {A} (f : StockfishInfo -> A) (k0 : InfoKey) parts i info :
  key_name k0 ∉ parts ->
  (forall k parts' j info', k <> k0 ->
     parts' !! j ≫= switch_key = Some k ->
     f (snd (parseInfo_switch parts' j info')) = f info') ->
  f (snd (parseInfo_switch parts i info)) = f info.
Proof.
  intros Hnot Hother.
  destruct (parts !! i ≫= switch_key) as [k|] eqn:Hk.
  - apply Hother with (k := k); [|done].
    intros ->. apply Hnot.
    destruct (parts !! i) as [token|] eqn:Hi; [|done]. simpl in Hk.
    apply switch_key_name in Hk as <-. by eapply list_elem_of_lookup_2.
  - unfold parseInfo_switch. by rewrite Hk.
Qed.

Lemma parseInfo_loop_keeps {A} (f : StockfishInfo -> A) (k0 : InfoKey) fuel parts i info result :
  key_name k0 ∉ parts ->
  (forall k parts' j info', k <> k0 ->
     parts' !! j ≫= switch_key = Some k ->
     f (snd (parseInfo_switch parts' j info')) = f info') ->
  parseInfo_loop fuel parts i info = Some result -> f result = f info.
Proof.
  intros Hnot Hother. revert i info.
  induction fuel as [|fuel IH]; intros i info; simpl.
  - destruct (length parts <=? i)%nat; [congruence | discriminate].
  - destruct (length parts <=? i)%nat; [congruence|].
    pose proof (parseInfo_switch_keeps f k0 parts i info Hnot Hother) as Hkeep.
    destruct (parseInfo_switch parts i info) as [i' info']; simpl in Hkeep.
    intros H. apply IH in H. congruence.
Qed.

Lemma only_pv_sets_pv k parts j info :
  k <> KPv -> parts !! j ≫= switch_key = Some k ->
  info_pv (snd (parseInfo_switch parts j info)) = info_pv info.
Proof. intros Hk Hsw. unfold parseInfo_switch. rewrite Hsw. by destruct k. Qed.

Lemma only_depth_sets_depth k parts j info :
  k <> KDepth -> parts !! j ≫= switch_key = Some k ->
  info_depth (snd (parseInfo_switch parts j info)) = info_depth info.
Proof. intros Hk Hsw. unfold parseInfo_switch. rewrite Hsw. by destruct k. Qed.

(** ** [#parseInfo] *)

(** C3. The parser on the two documented lines: the first yields depth 12,
    seldepth 18, score cp 34, nodes 500000, nps 250000 and pv "e2e4 e7e5"
    (and no other property), the second yields score mate -3 with depth 5
    and pv "g1f3". *)
Theorem parseInfo_documented_lines :
  parseInfo "info depth 12 seldepth 18 score cp 34 nodes 500000 nps 250000 pv e2e4 e7e5"
  = Some {| info_depth := Some (JS.Int 12);
            info_seldepth := Some (JS.Int 18);
            info_time := None;
            info_nodes := Some (JS.Int 500000);
            info_pv := "e2e4 e7e5";
            info_score := Some {| type := "cp"; value := JS.Int 34 |};
            info_nps := Some (JS.Int 250000);
            info_hashfull := None;
            info_cpuload := None;
            info_multipv := None |}
  /\
  parseInfo "info depth 5 score mate -3 pv g1f3"
  = Some {| info_depth := Some (JS.Int 5);
            info_seldepth := None;
            info_time := None;
            info_nodes := None;
            info_pv := "g1f3";
            info_score := Some {| type := "mate"; value := JS.Int (-3) |};
            info_nps := None;
            info_hashfull := None;
            info_cpuload := None;
            info_multipv := None |}.
Proof. split; vm_compute; reflexivity. Qed.

(** C4. A token met by the scan that is none of the recognized keys leaves
    the [switch] with the loop variable and the info unchanged, so the next
    turn of the loop examines the token right after it as a key, with the
    same info: no value token is consumed. The scan resumed at such a token
    still ends with a result, and so does the parse of any line that has
    these tokens. *)
Theorem unrecognized_token_skipped (parts : list string) (i : nat) (token : string)
    (info : StockfishInfo) :
  parts !! i = Some token ->
  token ∉ recognized_keys ->
  parseInfo_switch parts i info = (i, info)
  /\ (forall fuel,
        parseInfo_loop (S fuel) parts i info = parseInfo_loop fuel parts (i + 1) info)
  /\ is_Some (parseInfo_loop (length parts) parts i info)
  /\ (forall line, JS.split line = parts -> is_Some (parseInfo line)).
Proof.
  intros Hi Hnot.
  assert (Hsw : parseInfo_switch parts i info = (i, info)).
  { unfold parseInfo_switch. rewrite Hi. simpl.
    by rewrite (switch_key_unrecognized token Hnot). }
  split; [exact Hsw|]. split; [|split].
  - intros fuel. simpl. rewrite Hsw.
    apply lookup_lt_Some in Hi.
    destruct (Nat.leb_spec (length parts) i); [lia | reflexivity].
  - apply parseInfo_loop_ends. lia.
  - intros line _. apply parseInfo_total.
Qed.

Lemma unrecognized_token_skipped_witness :
  parseInfo_switch ["info"; "currmove"; "depth"; "3"] 1 empty_info = (1, empty_info)
  /\ (forall fuel,
        parseInfo_loop (S fuel) ["info"; "currmove"; "depth"; "3"] 1 empty_info
        = parseInfo_loop fuel ["info"; "currmove"; "depth"; "3"] (1 + 1) empty_info)
  /\ is_Some (parseInfo_loop 4 ["info"; "currmove"; "depth"; "3"] 1 empty_info)
  /\ (forall line,
        JS.split line = ["info"; "currmove"; "depth"; "3"] -> is_Some (parseInfo line)).
Proof.
  apply (unrecognized_token_skipped ["info"; "currmove"; "depth"; "3"] 1 "currmove" empty_info).
  - reflexivity.
  - unfold recognized_keys, info_keys. simpl. intros H.
    apply list_elem_of_In in H. simpl in H.
    repeat (destruct H as [H|H]; [discriminate H|]). exact H.
Defined.

(** The value of an unrecognized key is itself read as a key. *)
Example unrecognized_key_value_read_as_key :
  info_depth <$> parseInfo "info string depth 3" = Some (Some (JS.Int 3)).
Proof. reflexivity. Qed.

(** C8. The parser returns an info event for every line, never the null
    case. Hence a line that starts with "info" always has its info event
    emitted (right after the raw output event), whether or not an analysis
    is active and whatever its tokens are; the event's pv is the empty
    string when no token is "pv", and it has no depth when no token is
    "depth". *)
Theorem info_line_always_emitted :
  (forall line, exists info, parseInfo line = Some info)
  /\ (forall line st,
        JS.startsWith "info" line = true ->
        exists info,
          parseInfo line = Some info
          /\ snd (handleOutput line st) = [Emit_output line; Emit_info info]
          /\ ("pv" ∉ JS.split line -> info_pv info = "")
          /\ ("depth" ∉ JS.split line -> info_depth info = None)).
Proof.
  split.
  - intros line. destruct (parseInfo_total line) as [info H]. by exists info.
  - intros line st Hstart.
    destruct (parseInfo_total line) as [info Hinfo]. exists info.
    split; [exact Hinfo|]. split; [|split].
    + unfold handleOutput. rewrite Hstart, Hinfo.
      by destruct (currentAnalysis st).
    + intros Hnot. unfold parseInfo in Hinfo.
      by apply (parseInfo_loop_keeps info_pv KPv _ _ _ _ _ Hnot only_pv_sets_pv) in Hinfo.
    + intros Hnot. unfold parseInfo in Hinfo.
      by apply (parseInfo_loop_keeps info_depth KDepth _ _ _ _ _ Hnot only_depth_sets_depth)
        in Hinfo.
Qed.

Lemma info_line_always_emitted_witness :
  exists info,
    parseInfo "info string hello" = Some info
    /\ snd (handleOutput "info string hello" (fst new_Stockfish))
       = [Emit_output "info string hello"; Emit_info info]
    /\ info_pv info = "" /\ info_depth info = None.
Proof.
  destruct info_line_always_emitted as [_ H].
  destruct (H "info string hello" (fst new_Stockfish)) as (info & H1 & H2 & H3 & H4);
    [reflexivity|].
  exists info. split; [exact H1|]. split; [exact H2|]. split.
  - apply H3. intros Hin. apply list_elem_of_In in Hin. simpl in Hin.
    repeat (destruct Hin as [Hin|Hin]; [discriminate Hin|]). exact Hin.
  - apply H4. intros Hin. apply list_elem_of_In in Hin. simpl in Hin.
    repeat (destruct Hin as [Hin|Hin]; [discriminate Hin|]). exact Hin.
Defined.

(** ** [#handleOutput]: info lines *)



Lemma multipv_or_1_falsy info :
  info_multipv info = Some JS.NaN \/ info_multipv info = Some (JS.Int 0) ->
  multipv_or_1 info = 1%Z.
Proof. unfold multipv_or_1. by intros [-> | ->]. Qed.



(** The stored line replaces an earlier one at the same index. *)
Example later_info_overwrites :
  let st := mkStockfish (Some child_process) Fulfilled true (Some 0)
              (Some (mkAnalysis "" None ∅)) in
  let st1 := fst (handleOutput "info depth 3 multipv 2 score cp 10 nodes 7 pv e2e4" st) in
  let st2 := fst (handleOutput "info depth 4 multipv 2 pv d2d4" st1) in
  (lines <$> currentAnalysis st2)
  = Some {[ 1%Z := mkLine "d2d4" (mkScore "cp" (JS.Int 0)) (Some (JS.Int 4))
                          (JS.Int 0) (JS.Int 0) (JS.Int 0) ]}.
Proof. vm_compute. reflexivity. Qed.

(** ** [#handleOutput]: the best-move line *)

Lemma bestmove_not_info line :
  JS.startsWith "bestmove" line = true -> JS.startsWith "info" line = false.
Proof.
  unfold JS.startsWith. destruct line as [|c line]; [done|].
  change (String.prefix "bestmove" (String c line))
    with (if ascii_dec "b" c then String.prefix "estmove" line else false).
  change (String.prefix "info" (String c line))
    with (if ascii_dec "i" c then String.prefix "nfo" line else false).
  destruct (ascii_dec "b" c) as [<-|]; [|done].
  intros _. by destruct (ascii_dec "i" "b").
Qed.

(** C1, as the code has it. For a line that starts with "bestmove": the
    line is cut at every single space character (U+0020; no other white
    space separates tokens, and two adjacent spaces enclose an empty token).
    With an analysis active, the best move becomes token 1 (the empty string
    if there is none), the ponder move becomes token 3 exactly when token 2
    is "ponder" and is kept otherwise, the lines are kept, the resolver of
    the active analysis is called once with that result, after the raw
    output event, and both analysis fields are cleared. With no analysis
    active the state is unchanged and only the raw output event is emitted. *)
Theorem bestmove_line_finishes_analysis (line : string) (st : Stockfish) :
  JS.startsWith "bestmove" line = true ->
  (forall r a,
      analysisPromise st = Some r ->
      currentAnalysis st = Some a ->
      let parts := JS.split_on JS.is_space line in
      let result :=
        {| bestmove := default "" (parts !! 1);
           ponder := if bool_decide (parts !! 2 = Some "ponder") then parts !! 3 else ponder a;
           lines := lines a |} in
      handleOutput line st
      = ({| process := process st; readyPromise := readyPromise st; isReady := isReady st;
            analysisPromise := None; currentAnalysis := None |},
         [Emit_output line; Resolve r result]))
  /\ (analysisPromise st = None \/ currentAnalysis st = None ->
      handleOutput line st = (st, [Emit_output line])).
Proof.
  intros Hstart. split.
  - intros r a Hr Ha parts result. unfold handleOutput.
    rewrite (bestmove_not_info line Hstart), Hstart, Hr, Ha. simpl. do 3 f_equal.
    subst result parts. unfold finish_analysis, JS.split.
    rewrite js_or_str_empty. by case_bool_decide.
  - intros H. unfold handleOutput.
    rewrite (bestmove_not_info line Hstart), Hstart.
    destruct H as [H | H]; rewrite H; [reflexivity|].
    by destruct (analysisPromise st).
Qed.

Lemma bestmove_line_finishes_analysis_witness :
  handleOutput "bestmove e2e4 ponder e7e5"
    (mkStockfish (Some child_process) Fulfilled true (Some 7) (Some (mkAnalysis "" None ∅)))
  = (mkStockfish (Some child_process) Fulfilled true None None,
     [Emit_output "bestmove e2e4 ponder e7e5";
      Resolve 7 (mkAnalysis "e2e4" (Some "e7e5") ∅)]).
Proof.
  destruct (bestmove_line_finishes_analysis "bestmove e2e4 ponder e7e5"
              (mkStockfish (Some child_process) Fulfilled true (Some 7)
                 (Some (mkAnalysis "" None ∅)))) as [H _]; [reflexivity|].
  exact (H 7 (mkAnalysis "" None ∅) eq_refl eq_refl).
Defined.

(** C1 as stated fails on a best-move line whose tokens are separated by a
    tab: split on white space, its token 1 is "e2e4", but the session sets
    the best move of the result it resolves with to the empty string. *)
Lemma bestmove_tab_separated_counterexample :
  let line := "bestmove" +:+ tab +:+ "e2e4" in
  let st := mkStockfish (Some child_process) Fulfilled true (Some 7)
              (Some (mkAnalysis "" None ∅)) in
  JS.startsWith "bestmove" line = true
  /\ split_whitespace_spec line = ["bestmove"; "e2e4"]
  /\ snd (handleOutput line st) = [Emit_output line; Resolve 7 (mkAnalysis "" None ∅)]
  /\ bestmove (mkAnalysis "" None ∅) <> default "" (split_whitespace_spec line !! 1).
Proof. repeat split. discriminate. Qed.

(** ** [analyze] on a session that is already analysing *)

Lemma handleOutput_frame line st :
  process (fst (handleOutput line st)) = process st
  /\ readyPromise (fst (handleOutput line st)) = readyPromise st
  /\ isReady (fst (handleOutput line st)) = isReady st.
Proof.
  unfold handleOutput.
  destruct (JS.startsWith "info" line).
  - destruct (parseInfo line); [|done]. by destruct (currentAnalysis st).
  - destruct (JS.startsWith "bestmove" line); [|done].
    destruct (analysisPromise st); [|done]. by destruct (currentAnalysis st).
Qed.

Lemma handleOutput_analysis line st :
  (analysisPromise (fst (handleOutput line st)) = analysisPromise st
   /\ (is_Some (currentAnalysis (fst (handleOutput line st))) <-> is_Some (currentAnalysis st)))
  \/ (analysisPromise (fst (handleOutput line st)) = None
      /\ currentAnalysis (fst (handleOutput line st)) = None).
Proof.
  unfold handleOutput.
  destruct (JS.startsWith "info" line).
  - left. destruct (parseInfo line); [|done].
    destruct (currentAnalysis st) eqn:Ha; simpl; [|by rewrite Ha].
    split; [done|]. split; intros _; by eexists.
  - destruct (JS.startsWith "bestmove" line); [|by left].
    destruct (analysisPromise st) eqn:Hr; [|by left].
    destruct (currentAnalysis st) eqn:Ha; [by right|].
    left. simpl. by rewrite Ha.
Qed.

(** In every state of a session: once ready, or once an analysis is active,
    the handshake promise is fulfilled; and the resolver and the accumulating
    result are set and cleared together. *)
Lemma reachable_invariant st :
  reachable st ->
  (isReady st = true -> readyPromise st = Fulfilled)
  /\ (is_Some (analysisPromise st) -> readyPromise st = Fulfilled)
  /\ (is_Some (analysisPromise st) <-> is_Some (currentAnalysis st)).
Proof.
  induction 1 as [|st effects st' _ (IH1 & IH2 & IH3) Hstep].
  - simpl. split; [done|]. split; [by intros [? [=]]|].
    split; by intros [? [=]].
  - destruct Hstep as [st Hp | line st | code st | message st | st | fen depth r st Hf];
      simpl.
    + split; [done|]. split; [done|]. exact IH3.
    + destruct (handleOutput_frame line st) as (_ & -> & ->).
      destruct (handleOutput_analysis line st) as [[-> Hc] | [-> ->]].
      * split; [exact IH1|]. split; [exact IH2|]. by rewrite Hc.
      * split; [exact IH1|]. split; [by intros [? [=]]|]. split; by intros [? [=]].
    + split; [done|]. split; [exact IH2 | exact IH3].
    + split; [exact IH1|]. split; [exact IH2 | exact IH3].
    + unfold terminate. destruct (process st); simpl;
        (split; [done|]; split; [exact IH2 | exact IH3]).
    + unfold analyze_executor.
      destruct (send _ _) as [sent done]. simpl.
      split; [exact IH1|]. split; [done|]. split; intros _; by eexists.
Qed.

Lemma waitReady_of_active st :
  reachable st -> is_Some (analysisPromise st) -> waitReady st = Returned tt.
Proof.
  intros Hreach Hactive.
  destruct (reachable_invariant st Hreach) as (_ & Hready & _).
  unfold waitReady. rewrite (Hready Hactive). by destruct (isReady st).
Qed.

(** Once an earlier call has installed its analysis ([#analysisPromise] is
    set), a further call of [analyze] throws the error "Analysis already in
    progress"; it returns the session unchanged (the accumulated result, the
    resolver and all other fields) and has no effect: nothing is written to
    the engine and no resolver is called. *)
Theorem second_analyze_rejected (st : Stockfish) (active : Resolver)
    (fen : string) (depth multipv : Z) (r : Resolver) :
  reachable st ->
  analysisPromise st = Some active ->
  analyze fen depth multipv r st = (st, [], Thrown "Analysis already in progress").
Proof.
  intros Hreach Hactive. unfold analyze.
  rewrite (waitReady_of_active st Hreach) by (rewrite Hactive; by eexists).
  by rewrite Hactive.
Qed.

(** A session in the middle of an analysis: constructed, handshake done,
    [analyze] called, one info line received. *)
Lemma analysing_session_reachable :
  reachable
    (mkStockfish (Some child_process) Fulfilled true (Some 0)
       (Some (mkAnalysis "" None
                {[ 0%Z := mkLine "e2e4" (mkScore "cp" (JS.Int 31)) (Some (JS.Int 1))
                                 (JS.Int 20) (JS.Int 0) (JS.Int 0) ]}))).
Proof.
  pose (s0 := fst new_Stockfish).
  pose (s1 := fst (initialize_done s0)).
  pose (s2 := fst (analyze_executor "startpos" 10 0 s1)).
  pose (s3 := fst (handleOutput "info depth 1 score cp 31 nodes 20 pv e2e4" s2)).
  assert (H0 : reachable s0) by constructor.
  assert (H1 : reachable s1).
  { eapply reachable_step; [exact H0|]. by apply step_handshake. }
  assert (H2 : reachable s2).
  { eapply reachable_step; [exact H1|]. by apply step_executor. }
  assert (H3 : reachable s3).
  { eapply reachable_step; [exact H2|]. apply step_output. }
  exact H3.
Defined.

Lemma second_analyze_rejected_witness :
  let st :=
    mkStockfish (Some child_process) Fulfilled true (Some 0)
      (Some (mkAnalysis "" None
               {[ 0%Z := mkLine "e2e4" (mkScore "cp" (JS.Int 31)) (Some (JS.Int 1))
                                (JS.Int 20) (JS.Int 0) (JS.Int 0) ]})) in
  analyze "8/8/8/8/8/8/8/K6k w - - 0 1" 12 1 1 st
  = (st, [], Thrown "Analysis already in progress").
Proof.
  intros st.
  apply (second_analyze_rejected st 0 "8/8/8/8/8/8/8/K6k w - - 0 1" 12 1 1).
  - exact analysing_session_reachable.
  - reflexivity.
Defined.

(** The first call, on a ready session with no analysis active, installs
    the analysis and sends the three commands. *)
Example first_analyze_starts :
  let st := mkStockfish (Some child_process) Fulfilled true None None in
  analyze "8/8 w" 10 1 3 st
  = (mkStockfish (Some child_process) Fulfilled true (Some 3) (Some (mkAnalysis "" None ∅)),
     [Stdin_write ("setoption name MultiPV value 1" +:+ newline);
      Stdin_write ("position fen 8/8 w" +:+ newline);
      Stdin_write ("go depth 10" +:+ newline)],
     Returned 3).
Proof. reflexivity. Qed.

(** ** Two calls of [analyze] that overlap *)

(** [analyze] is its three segments run in one state, when nothing else
    runs in between its awaits. *)
Lemma analyze_segments fen depth multipv r st :
  analyze fen depth multipv r st
  = match waitReady st with
    | Returned _ =>
        match analyze_guard (JS.to_string multipv) st with
        | (sent_option, Returned _) =>
            (fst (analyze_executor fen depth r st),
             sent_option ++ snd (analyze_executor fen depth r st), Returned r)
        | (sent_option, Thrown m) => (st, sent_option, Thrown m)
        | (sent_option, Suspended w) => (st, sent_option, Suspended w)
        end
    | Thrown m => (st, [], Thrown m)
    | Suspended w => (st, [], Suspended w)
    end.
Proof.
  unfold analyze, analyze_guard.
  destruct (waitReady st); [|done..].
  destruct (analysisPromise st); [done|].
  destruct (send _ st) as [sent_option [| |]]; [|done..].
  by destruct (analyze_executor fen depth r st).
Qed.

Lemma analyze_executor_install fen depth r st :
  analyze_executor fen depth r st = analyze_install fen (JS.to_string depth) r st.
Proof. reflexivity. Qed.

(** A resolver that is not the installed one is not called, and does not
    become the installed one, whatever the output line. *)
Lemma handleOutput_other_resolver line st r :
  analysisPromise st <> Some r ->
  (forall result, Resolve r result ∉ snd (handleOutput line st))
  /\ analysisPromise (fst (handleOutput line st)) <> Some r.
Proof.
  intros Hother. split.
  - intros result. unfold handleOutput.
    destruct (JS.startsWith "info" line).
    + destruct (parseInfo line) as [info|]; [destruct (currentAnalysis st)|]; simpl;
        intros Hin; repeat (apply elem_of_cons in Hin as [[=] | Hin]);
        by apply elem_of_nil in Hin.
    + destruct (JS.startsWith "bestmove" line).
      2:{ simpl. intros [[=] | Hin%elem_of_nil]%elem_of_cons. done. }
      destruct (analysisPromise st) as [r0|].
      2:{ simpl. intros [[=] | Hin%elem_of_nil]%elem_of_cons. done. }
      destruct (currentAnalysis st) as [a|].
      2:{ simpl. intros [[=] | Hin%elem_of_nil]%elem_of_cons. done. }
      simpl. intros [[=] | [[= -> _] | Hin%elem_of_nil]%elem_of_cons]%elem_of_cons; done.
  - destruct (handleOutput_analysis line st) as [[-> _] | [-> _]]; done.
Qed.

Lemma handleOutputs_other_resolver lines st r result :
  analysisPromise st <> Some r ->
  Resolve r result ∉ snd (handleOutputs lines st).
Proof.
  revert st. induction lines as [|line lines IH]; intros st Hother; simpl.
  - by intros ?%elem_of_nil.
  - destruct (handleOutput_other_resolver line st r Hother) as [Hnow Hlater].
    destruct (handleOutput line st) as [st1 effects].
    specialize (IH st1 Hlater). destruct (handleOutputs lines st1) as [st2 more].
    simpl in *. intros [Hin | Hin]%elem_of_app; [by apply (Hnow result) | done].
Qed.

(** C2, on two calls made one right after the other on a ready session with
    no analysis in progress ([engine.analyze(fenA, 10); engine.analyze(fenB,
    12)], with resolvers 1 and 2). No field is assigned before the first
    executor runs, and the second call's test of [#analysisPromise] runs
    while the first call still awaits its [send] of the MultiPV option; so
    both calls run [waitReady] and [analyze_guard] in the state [ready].
    Both pass: the second call is not rejected. The first executor installs
    resolver 1; the second executor then replaces it, and the result being
    accumulated, by its own. The next best-move line resolves the second
    call's promise only, and no output line whatsoever resolves the first
    call's promise afterwards. *)
Theorem overlapping_analyze_not_rejected :
  let ready := fst (initialize_done (fst new_Stockfish)) in
  let first := fst (analyze_executor "8/8/8/8/8/8/8/K6k w - - 0 1" 10 1 ready) in
  let second := fst (analyze_executor "8/8/8/8/8/8/8/k6K w - - 0 1" 12 2 first) in
  reachable second
  /\ analysisPromise ready = None
  /\ waitReady ready = Returned tt
  /\ analyze_guard "1" ready
     = ([Stdin_write ("setoption name MultiPV value 1" +:+ newline)], Returned tt)
  /\ first = mkStockfish (Some child_process) Fulfilled true (Some 1)
               (Some (mkAnalysis "" None ∅))
  /\ second = mkStockfish (Some child_process) Fulfilled true (Some 2)
                (Some (mkAnalysis "" None ∅))
  /\ handleOutput "bestmove e2e4" second
     = (ready, [Emit_output "bestmove e2e4"; Resolve 2 (mkAnalysis "e2e4" None ∅)])
  /\ forall lines result, Resolve 1 result ∉ snd (handleOutputs lines second).
Proof.
  intros ready first second.
  split.
  { assert (H0 : reachable (fst new_Stockfish)) by constructor.
    assert (H1 : reachable ready).
    { eapply reachable_step; [exact H0|]. by apply step_handshake. }
    assert (H2 : reachable first).
    { eapply reachable_step; [exact H1|]. by apply step_executor. }
    eapply reachable_step; [exact H2|]. by apply step_executor. }
  repeat (split; [reflexivity|]).
  intros lines result. by apply handleOutputs_other_resolver.
Qed.

End EngineProofs.

(** * Properties of the pool *)
Module PoolProofs.
Import Pool.

(** ** Sample runs *)

Example pool_of_two :
  new_StockfishPool 2
  = (mkPool [0; 1] [] {[0; 1]} 2 0, [Spawn 0; Spawn 1]).
Proof. vm_compute. reflexivity. Qed.

Example acquire_then_wait_then_release :
  let p0 := fst (new_StockfishPool 1) in
  snd (run [Acquire; Acquire; Release 0] p0)
  = [Acquire_returns (Resolved 0); Acquire_returns (Queued 0); Resolve_waiter 0 0].
Proof. vm_compute. reflexivity. Qed.

(** ** The bookkeeping invariant *)

Lemma makeAvailable_well_formed engine p :
  well_formed p -> engine < next_engine p -> well_formed (fst (makeAvailable engine p)).
Proof.
  intros (Hall & Hfree & Hqueue & Hexcl) Hnew. unfold makeAvailable, well_formed.
  destruct (queue p) as [|resolve waiting] eqn:Hq; simpl.
  - split; [exact Hall|]. split; [|split; [by rewrite Hq | by right; rewrite Hq]].
    intros e [He | ->%list_elem_of_singleton]%elem_of_app; [by apply Hfree | done].
  - split; [exact Hall|]. split; [exact Hfree|]. split.
    + intros w Hw. apply Hqueue. by apply list_elem_of_further.
    + left. by destruct Hexcl.
Qed.

Lemma addWorker_well_formed p : well_formed p -> well_formed (fst (addWorker p)).
Proof.
  intros (Hall & Hfree & Hqueue & Hexcl). unfold addWorker.
  destruct (makeAvailable _ _) as [p2 handed] eqn:Hmake.
  change p2 with (fst (p2, handed)). rewrite <- Hmake.
  apply makeAvailable_well_formed; [|simpl; lia].
  unfold well_formed; simpl. split; [|split; [|done]].
  - intros e [->%elem_of_singleton | He]%elem_of_union; [lia|].
    specialize (Hall e He). lia.
  - intros e He. specialize (Hfree e He). lia.
Qed.

Lemma add_workers_well_formed size p :
  well_formed p -> well_formed (fst (add_workers size p)).
Proof.
  revert p. induction size as [|size IH]; intros p Hwf; simpl; [done|].
  pose proof (addWorker_well_formed p Hwf) as Hwf1.
  destruct (addWorker p) as [p1 added]. simpl in Hwf1.
  specialize (IH p1 Hwf1). by destruct (add_workers size p1).
Qed.

Lemma replaceWorker_well_formed dead o p :
  well_formed p -> well_formed (fst (fst (replaceWorker dead o p))).
Proof.
  intros (Hall & Hfree & Hqueue & Hexcl). unfold replaceWorker.
  assert (Hwf1 : well_formed
            (mkPool (filter (λ e, e ≠ dead) (free p)) (queue p) (all p ∖ {[dead]})
                    (next_engine p) (next_waiter p))).
  { unfold well_formed; simpl. split; [|split; [|split; [done|]]].
    - intros e [He _]%elem_of_difference. by apply Hall.
    - intros e [_ He]%list_elem_of_filter. by apply Hfree.
    - destruct Hexcl as [-> | ->]; [by left | by right]. }
  apply addWorker_well_formed in Hwf1.
  destruct o; simpl; by destruct (addWorker _).
Qed.

Lemma acquire_well_formed p : well_formed p -> well_formed (fst (acquire p)).
Proof.
  intros (Hall & Hfree & Hqueue & Hexcl). unfold acquire.
  destruct (last (free p)) as [engine|] eqn:Hlast; unfold well_formed; simpl.
  - apply last_Some in Hlast as [rest Hrest]. rewrite Hrest, removelast_last.
    split; [exact Hall|]. split; [|split; [exact Hqueue|]].
    + intros e He. apply Hfree. rewrite Hrest. apply elem_of_app. by left.
    + right. destruct Hexcl as [Hnil | Hnil]; [|done].
      rewrite Hrest in Hnil. by destruct rest.
  - apply last_None in Hlast.
    split; [exact Hall|]. split; [exact Hfree|]. split; [|by left].
    intros w [Hw | ->%list_elem_of_singleton]%elem_of_app; [|lia].
    specialize (Hqueue w Hw). lia.
Qed.

Lemma release_well_formed engine p : well_formed p -> well_formed (fst (release engine p)).
Proof.
  intros Hwf. unfold release. case_bool_decide as Hmember; [|done].
  apply makeAvailable_well_formed; [done|].
  destruct Hwf as (Hall & _). by apply Hall.
Qed.

Lemma terminate_well_formed throws p :
  well_formed p -> well_formed (fst (fst (terminate throws p))).
Proof.
  intros Hwf. unfold terminate.
  destruct (terminate_each throws (elements (all p))) as [effects []]; simpl; [|done].
  unfold well_formed; simpl.
  split; [by intros e ?%not_elem_of_empty|]. split; [by intros e ?%elem_of_nil|].
  split; [by intros w ?%elem_of_nil | by left].
Qed.

Lemma call_well_formed c p : well_formed p -> well_formed (fst (call c p)).
Proof.
  intros Hwf. destruct c as [|engine|throws|engine o]; simpl.
  - pose proof (acquire_well_formed p Hwf). by destruct (acquire p).
  - by apply release_well_formed.
  - by apply terminate_well_formed.
  - by apply replaceWorker_well_formed.
Qed.

Lemma reachable_well_formed p : reachable p -> well_formed p.
Proof.
  induction 1 as [size | c p _ IH _].
  - apply add_workers_well_formed. unfold well_formed, empty_pool; simpl.
    split; [by intros e ?%not_elem_of_empty|]. split; [by intros e ?%elem_of_nil|].
    split; [by intros w ?%elem_of_nil | by left].
  - by apply call_well_formed.
Qed.

(** ** [acquire], [release] and the hand-over to waiters *)

Lemma acquire_pops p rest engine :
  free p = rest ++ [engine] -> acquire p = (set_free rest p, Resolved engine).
Proof.
  intros Hfree. unfold acquire. by rewrite Hfree, last_snoc, removelast_last.
Qed.

Lemma acquire_queues p :
  free p = [] ->
  acquire p
  = (mkPool [] (queue p ++ [next_waiter p]) (all p) (next_engine p) (S (next_waiter p)),
     Queued (next_waiter p)).
Proof. intros Hfree. unfold acquire. by rewrite Hfree. Qed.

Lemma on_engine_error_eq dead o p :
  on_engine_error dead o p
  = (mkPool (filter (λ e, e ≠ dead) (free p)
               ++ match queue p with [] => [next_engine p] | _ :: _ => [] end)
            (tail (queue p))
            ({[next_engine p]} ∪ all p ∖ {[dead]})
            (S (next_engine p)) (next_waiter p),
     Terminate_engine dead :: Spawn (next_engine p)
       :: match queue p with
          | [] => []
          | resolve :: _ => [Resolve_waiter resolve (next_engine p)]
          end).
Proof.
  unfold on_engine_error, replaceWorker, addWorker, makeAvailable.
  destruct o; simpl; destruct (queue p); simpl; by rewrite ?app_nil_r.
Qed.

Lemma removelast_sublist {A} (l : list A) : removelast l `sublist_of` l.
Proof.
  destruct (last l) as [x|] eqn:Hlast.
  - apply last_Some in Hlast as [l' ->]. rewrite removelast_last.
    by apply sublist_inserts_r.
  - apply last_None in Hlast as ->. done.
Qed.

(** C5. In every pool state, [acquire] with a non-empty free collection
    takes its last (most recently added) session and returns it at once,
    leaving the rest of the fields as they were. When a member is released,
    or a replacement is added after an error, while waiters are queued, the
    session is handed to the first (oldest) queued waiter and the free
    collection gains nothing; a blocked [acquire] puts its resolver at the
    end of the queue, so the first is the oldest. No call adds a session to
    the free collection while a waiter is queued, and in the states a pool
    goes through the free collection and the waiter queue are never both
    non-empty. *)
Theorem acquire_lifo_handoff_fifo :
  (forall p rest engine,
      free p = rest ++ [engine] ->
      acquire p = (set_free rest p, Resolved engine))
  /\ (forall p engine resolve waiting,
        queue p = resolve :: waiting ->
        engine ∈ all p ->
        release engine p = (set_queue waiting p, [Resolve_waiter resolve engine]))
  /\ (forall p dead o resolve waiting,
        queue p = resolve :: waiting ->
        on_engine_error dead o p
        = (mkPool (filter (λ e, e ≠ dead) (free p)) waiting
                  ({[next_engine p]} ∪ all p ∖ {[dead]})
                  (S (next_engine p)) (next_waiter p),
           [Terminate_engine dead; Spawn (next_engine p);
            Resolve_waiter resolve (next_engine p)]))
  /\ (forall p,
        free p = [] ->
        acquire p
        = (mkPool [] (queue p ++ [next_waiter p]) (all p) (next_engine p)
                  (S (next_waiter p)),
           Queued (next_waiter p)))
  /\ (forall p c, queue p <> [] -> free (fst (call c p)) `sublist_of` free p)
  /\ (forall p, reachable p -> free p = [] \/ queue p = []).
Proof.
  split; [exact acquire_pops|]. split; [|split; [|split; [exact acquire_queues|split]]].
  - intros p engine resolve waiting Hq Hmember. unfold release, makeAvailable.
    rewrite bool_decide_eq_true_2 by done. by rewrite Hq.
  - intros p dead o resolve waiting Hq.
    rewrite on_engine_error_eq, Hq. simpl. by rewrite app_nil_r.
  - intros p c Hq. destruct c as [|engine|throws|engine o]; simpl.
    + unfold acquire. destruct (last (free p)); simpl; [apply removelast_sublist | done].
    + unfold release, makeAvailable. case_bool_decide; [|done].
      by destruct (queue p).
    + unfold terminate.
      destruct (terminate_each throws (elements (all p))) as [effects []]; simpl;
        [apply sublist_nil_l | done].
    + rewrite on_engine_error_eq. simpl.
      destruct (queue p); [done|]. rewrite app_nil_r. apply sublist_filter.
  - intros p Hreach. by destruct (reachable_well_formed p Hreach) as (_ & _ & _ & H).
Qed.

Lemma acquire_lifo_handoff_fifo_witness :
  acquire (mkPool [0; 1] [] {[0; 1]} 2 0)
  = (mkPool [0] [] {[0; 1]} 2 0, Resolved 1)
  /\ release 1 (mkPool [] [4; 5] {[0; 1]} 2 6)
     = (mkPool [] [5] {[0; 1]} 2 6, [Resolve_waiter 4 1])
  /\ free (fst (on_engine_error 0 Normal (mkPool [] [4; 5] {[0; 1]} 2 6))) = []
  /\ snd (on_engine_error 0 Normal (mkPool [] [4; 5] {[0; 1]} 2 6))
     = [Terminate_engine 0; Spawn 2; Resolve_waiter 4 2].
Proof.
  destruct acquire_lifo_handoff_fifo as (Hacquire & Hrelease & Herror & _).
  split; [exact (Hacquire (mkPool [0; 1] [] {[0; 1]} 2 0) [0] 1 eq_refl)|].
  split.
  - refine (Hrelease (mkPool [] [4; 5] {[0; 1]} 2 6) 1 4 [5] eq_refl _).
    simpl. by apply elem_of_union_r, elem_of_singleton.
  - rewrite (Herror (mkPool [] [4; 5] {[0; 1]} 2 6) 0 Normal 4 [5] eq_refl).
    split; reflexivity.
Defined.

(** ** Replacement of a session that reported an error *)

Lemma addWorker_all p :
  all (fst (addWorker p)) = {[next_engine p]} ∪ all p.
Proof. unfold addWorker, makeAvailable. simpl. by destruct (queue p). Qed.

(** A new pool of size N has N members. *)
Lemma add_workers_size size0 p :
  well_formed p -> size (all (fst (add_workers size0 p))) = size (all p) + size0.
Proof.
  revert p. induction size0 as [|n IH]; intros p Hwf; simpl; [lia|].
  pose proof (addWorker_well_formed p Hwf) as Hwf1.
  pose proof (addWorker_all p) as Hall1.
  destruct (addWorker p) as [p1 added]. simpl in *.
  specialize (IH p1 Hwf1). destruct (add_workers n p1) as [p2 more]. simpl in *.
  rewrite IH, Hall1, size_union, size_singleton; [lia|].
  apply disjoint_singleton_l. intros Hin.
  destruct Hwf as (Hall & _). specialize (Hall _ Hin). lia.
Qed.

Lemma new_pool_size N : size (all (fst (new_StockfishPool N))) = N.
Proof.
  unfold new_StockfishPool. rewrite add_workers_size.
  - reflexivity.
  - unfold well_formed, empty_pool; simpl.
    split; [by intros e ?%not_elem_of_empty|]. split; [by intros e ?%elem_of_nil|].
    split; [by intros w ?%elem_of_nil | by left].
Qed.

(** [acquire] and [release] leave the membership alone. *)
Lemma acquire_release_keep_members c p :
  match c with Acquire | Release _ => True | _ => False end ->
  all (fst (call c p)) = all p.
Proof.
  destruct c as [|engine| |]; simpl; try done; intros _.
  - unfold acquire. by destruct (last (free p)).
  - unfold release, makeAvailable. case_bool_decide; [|done]. by destruct (queue p).
Qed.

(** C7. When a member of a pool with N members emits an error, the pool
    calls its [terminate] (an exception it throws is caught and the handling
    goes on), creates exactly one new session, and ends with: the dead
    session neither a member nor free, the new session a member, the other
    members unchanged, and N members again. The new session goes to the
    oldest waiter if there is one and to the end of the free collection
    otherwise. *)
Theorem crashed_member_replaced (p : StockfishPool) (N : nat) (dead : EngineRef)
    (o : Outcome) :
  reachable p ->
  size (all p) = N ->
  dead ∈ all p ->
  let replacement := next_engine p in
  let p' := fst (on_engine_error dead o p) in
  snd (replaceWorker dead o p) = Normal
  /\ snd (on_engine_error dead o p)
     = Terminate_engine dead :: Spawn replacement
         :: match queue p with
            | [] => []
            | resolve :: _ => [Resolve_waiter resolve replacement]
            end
  /\ all p' = {[replacement]} ∪ all p ∖ {[dead]}
  /\ (replacement ∉ all p)
  /\ (dead ∉ all p')
  /\ (dead ∉ free p')
  /\ free p' = filter (λ e, e ≠ dead) (free p)
                 ++ match queue p with [] => [replacement] | _ :: _ => [] end
  /\ size (all p') = N.
Proof.
  intros Hreach Hsize Hdead replacement p'.
  destruct (reachable_well_formed p Hreach) as (Hall & _).
  assert (Hfresh : replacement ∉ all p).
  { intros Hin. specialize (Hall _ Hin). unfold replacement in Hall. lia. }
  assert (Hne : replacement <> dead) by congruence.
  subst p'. rewrite on_engine_error_eq. simpl. fold replacement.
  split.
  { unfold replaceWorker. destruct o; simpl; by destruct (addWorker _). }
  split; [done|]. split; [done|]. split; [done|].
  split; [|split; [|split; [done|]]].
  - intros [Hin%elem_of_singleton | [_ Hin]%elem_of_difference]%elem_of_union;
      [congruence|].
    apply Hin. by apply elem_of_singleton.
  - intros [[Hsame _]%list_elem_of_filter | Hin]%elem_of_app; [done|].
    destruct (queue p); [|by apply elem_of_nil in Hin].
    apply list_elem_of_singleton in Hin. congruence.
  - rewrite size_union.
    2:{ apply disjoint_singleton_l. by intros [Hin _]%elem_of_difference. }
    rewrite size_singleton, size_difference by (by apply singleton_subseteq_l).
    rewrite size_singleton.
    assert (size (all p) <> 0); [|lia].
    intros Hzero%size_empty_inv. destruct (Hzero dead) as [Hempty _].
    by apply Hempty, not_elem_of_empty in Hdead.
Qed.

Lemma crashed_member_replaced_witness :
  let p := fst (new_StockfishPool 2) in
  all (fst (on_engine_error 0 Throws p)) = {[2]} ∪ all p ∖ {[0]}
  /\ (0 ∉ free (fst (on_engine_error 0 Throws p)))
  /\ size (all (fst (on_engine_error 0 Throws p))) = 2.
Proof.
  intros p.
  destruct (crashed_member_replaced p 2 0 Throws) as (_ & _ & H1 & _ & _ & H2 & _ & H3).
  - apply reachable_new.
  - reflexivity.
  - unfold p. rewrite pool_of_two. simpl.
    apply elem_of_union_l. by apply elem_of_singleton.
  - split; [exact H1|]. split; [exact H2 | exact H3].
Defined.

(** ** Releasing a session that is already free *)

(** C9, as the code has it. [release] does not check whether the session is
    already idle: releasing a member that is in the free collection, with no
    waiter queued, appends it a second time. The next [acquire] returns that
    session and leaves the free collection as it was before the release, so
    the session is still offered; the [acquire] after that returns whatever
    was last in the free collection before the release, which is the same
    session only when that session was the last one there. *)
Theorem release_of_idle_member_duplicates (p : StockfishPool) (engine : EngineRef) :
  engine ∈ all p ->
  engine ∈ free p ->
  queue p = [] ->
  let p1 := fst (release engine p) in
  let p2 := fst (acquire p1) in
  release engine p = (set_free (free p ++ [engine]) p, [])
  /\ acquire p1 = (set_free (free p) p1, Resolved engine)
  /\ free p2 = free p
  /\ engine ∈ free p2
  /\ (forall other, snd (acquire p2) = Resolved other <-> last (free p) = Some other)
  /\ (last (free p) = Some engine -> snd (acquire p2) = Resolved engine).
Proof.
  intros Hmember Hfree Hqueue p1 p2.
  assert (Hrelease : release engine p = (set_free (free p ++ [engine]) p, [])).
  { unfold release, makeAvailable.
    rewrite bool_decide_eq_true_2 by done. by rewrite Hqueue. }
  assert (Hacquire : acquire p1 = (set_free (free p) p1, Resolved engine)).
  { apply acquire_pops. subst p1. by rewrite Hrelease. }
  assert (Hfree2 : free p2 = free p) by (subst p2; by rewrite Hacquire).
  assert (Hsecond : forall other,
             snd (acquire p2) = Resolved other <-> last (free p) = Some other).
  { intros other. unfold acquire. rewrite Hfree2.
    destruct (last (free p)) as [x|] eqn:Hlast; simpl.
    - split; congruence.
    - split; discriminate. }
  split; [exact Hrelease|]. split; [exact Hacquire|]. split; [exact Hfree2|].
  split; [by rewrite Hfree2|]. split; [exact Hsecond|].
  intros Hlast. by apply Hsecond.
Qed.

Lemma release_of_idle_member_duplicates_witness :
  let p := fst (new_StockfishPool 1) in
  let p1 := fst (release 0 p) in
  let p2 := fst (acquire p1) in
  free p1 = [0; 0] /\ snd (acquire p1) = Resolved 0 /\ snd (acquire p2) = Resolved 0.
Proof.
  intros p p1 p2.
  destruct (release_of_idle_member_duplicates p 0)
    as (H1 & H2 & _ & _ & _ & H3).
  - simpl. by apply elem_of_union_l, elem_of_singleton.
  - simpl. apply list_elem_of_here.
  - reflexivity.
  - split; [subst p1; by rewrite H1|]. split; [subst p1; by rewrite H2|].
    by apply H3.
Defined.

(** C9 as stated fails in a pool of two: session 0 is a member and free,
    no waiter is queued, and after [release] of session 0 the two following
    calls of [acquire] return session 0 and then session 1. *)
Lemma double_release_counterexample :
  let p := fst (new_StockfishPool 2) in
  let p1 := fst (release 0 p) in
  let p2 := fst (acquire p1) in
  (0 ∈ all p) /\ (0 ∈ free p) /\ queue p = []
  /\ free p1 = [0; 1; 0]
  /\ snd (acquire p1) = Resolved 0
  /\ snd (acquire p2) = Resolved 1
  /\ snd (acquire p2) <> snd (acquire p1).
Proof.
  intros p p1 p2. split; [|split].
  - unfold p. rewrite pool_of_two. simpl.
    by apply elem_of_union_l, elem_of_singleton.
  - unfold p. rewrite pool_of_two. simpl. apply list_elem_of_here.
  - repeat split. discriminate.
Qed.

(** ** After [terminate] *)

Lemma terminate_each_effects throws members :
  Forall (λ effect, exists e, effect = Terminate_engine e)
         (fst (terminate_each throws members)).
Proof.
  induction members as [|e members IH]; simpl; [constructor|].
  destruct (throws e); simpl.
  - repeat constructor. by exists e.
  - destruct (terminate_each throws members) as [effects o]. simpl in *.
    constructor; [by exists e | exact IH].
Qed.

(** A [terminate] in which no session's [terminate] throws empties the three
    collections and calls no resolver: each of its effects is the
    termination of a session. *)
Lemma terminate_clears throws p :
  snd (terminate throws p) = Normal ->
  fst (fst (terminate throws p)) = mkPool [] [] ∅ (next_engine p) (next_waiter p)
  /\ Forall (λ effect, exists e, effect = Terminate_engine e) (snd (fst (terminate throws p))).
Proof.
  unfold terminate. pose proof (terminate_each_effects throws (elements (all p))) as Heff.
  destruct (terminate_each throws (elements (all p))) as [effects []]; simpl in *; [done|].
  discriminate.
Qed.

Lemma terminate_normal p : snd (terminate (λ _, false) p) = Normal.
Proof.
  unfold terminate.
  assert (H : forall members, snd (terminate_each (λ _, false) members) = Normal).
  { induction members as [|e members IH]; simpl; [done|].
    by destruct (terminate_each _ members). }
  specialize (H (elements (all p))).
  by destruct (terminate_each _ (elements (all p))) as [effects []].
Qed.

(** A resolver is only ever called from the head of the queue. *)
Lemma call_resolves_queued c p w e :
  Resolve_waiter w e ∈ snd (call c p) -> w ∈ queue p.
Proof.
  destruct c as [|engine|throws|engine o]; simpl.
  - destruct (acquire p) as [p' a]. simpl.
    intros [=]%list_elem_of_singleton.
  - unfold release, makeAvailable. case_bool_decide; [|by intros ?%elem_of_nil].
    destruct (queue p) as [|resolve waiting]; simpl; [by intros ?%elem_of_nil|].
    intros [= -> ->]%list_elem_of_singleton. apply list_elem_of_here.
  - unfold terminate. pose proof (terminate_each_effects throws (elements (all p))) as Heff.
    destruct (terminate_each throws (elements (all p))) as [effects []]; simpl in *;
      intros Hin; rewrite Forall_forall in Heff;
      by destruct (Heff _ Hin) as [? [=]].
  - rewrite on_engine_error_eq. simpl.
    intros [[=] | [[=] | Hin]%elem_of_cons]%elem_of_cons.
    destruct (queue p) as [|resolve waiting]; [by apply elem_of_nil in Hin|].
    apply list_elem_of_singleton in Hin as [= -> ->]. apply list_elem_of_here.
Qed.

(** The queue only gains resolvers allocated by the call itself. *)
Lemma call_queue c p w :
  w ∈ queue (fst (call c p)) -> w ∈ queue p \/ w = next_waiter p.
Proof.
  destruct c as [|engine|throws|engine o]; simpl.
  - unfold acquire. destruct (last (free p)); simpl; [by left|].
    intros [H | H%list_elem_of_singleton]%elem_of_app; [by left | by right].
  - unfold release, makeAvailable. case_bool_decide; [|by left].
    destruct (queue p) as [|resolve waiting] eqn:Hq; simpl; rewrite ?Hq; [by left|].
    intros Hin. left. by apply list_elem_of_further.
  - unfold terminate.
    destruct (terminate_each throws (elements (all p))) as [effects []]; simpl;
      [by intros ?%elem_of_nil | by left].
  - rewrite on_engine_error_eq. simpl.
    destruct (queue p) as [|resolve waiting]; simpl; [by left|].
    intros H. left. by apply list_elem_of_further.
Qed.

Lemma call_next_waiter c p : next_waiter p <= next_waiter (fst (call c p)).
Proof.
  destruct c as [|engine|throws|engine o]; simpl.
  - unfold acquire. destruct (last (free p)); simpl; lia.
  - unfold release, makeAvailable. case_bool_decide; [|done].
    destruct (queue p); simpl; lia.
  - unfold terminate.
    destruct (terminate_each throws (elements (all p))) as [effects []]; simpl; lia.
  - rewrite on_engine_error_eq. simpl. lia.
Qed.

(** A resolver that was created earlier and is not in the queue is never
    called again, whatever happens to the pool. *)
Lemma dropped_waiter_never_resolved calls p w e :
  w ∉ queue p -> w < next_waiter p -> Resolve_waiter w e ∉ snd (run calls p).
Proof.
  revert p. induction calls as [|c calls IH]; intros p Hnot Hold; simpl.
  - by intros ?%elem_of_nil.
  - pose proof (call_resolves_queued c p w e) as Hhead.
    pose proof (call_queue c p w) as Hqueue.
    pose proof (call_next_waiter c p) as Hnext.
    destruct (call c p) as [p1 effects]. simpl in *.
    specialize (IH p1). destruct (run calls p1) as [p2 more]. simpl in *.
    intros [Hin | Hin]%elem_of_app; [by apply Hnot, Hhead|].
    revert Hin. apply IH; [|lia].
    intros [Hin | ->]%Hqueue; [contradiction | lia].
Qed.

(** The acquisitions pending when the pool is terminated are never resolved. *)
Lemma pending_acquire_never_resolved throws p w calls e :
  reachable p ->
  w ∈ queue p ->
  snd (terminate throws p) = Normal ->
  Resolve_waiter w e ∉ snd (run calls (fst (fst (terminate throws p)))).
Proof.
  intros Hreach Hw Hnormal.
  destruct (terminate_clears throws p Hnormal) as [-> _].
  destruct (reachable_well_formed p Hreach) as (_ & _ & Hqueue & _).
  apply dropped_waiter_never_resolved; simpl; [by intros ?%elem_of_nil|].
  by apply Hqueue.
Qed.

(** With no members and no free session, the public methods alone resolve
    nothing: every [acquire] is queued and no resolver is called. *)
Lemma emptied_pool_hangs calls p :
  all p = ∅ -> free p = [] ->
  Forall (λ c, is_method c = true) calls ->
  Forall (λ effect, (forall w e, effect <> Resolve_waiter w e)
                    /\ (forall e, effect <> Acquire_returns (Resolved e)))
         (snd (run calls p)).
Proof.
  intros Hall Hfree Hmethods. revert p Hall Hfree.
  induction Hmethods as [|c calls Hc _ IH]; intros p Hall Hfree; simpl; [constructor|].
  assert (Hstep : all (fst (call c p)) = ∅ /\ free (fst (call c p)) = []
                  /\ Forall (λ effect, (forall w e, effect <> Resolve_waiter w e)
                                       /\ (forall e, effect <> Acquire_returns (Resolved e)))
                            (snd (call c p))).
  { destruct c as [|engine|throws|engine o]; simpl in *; [| | |discriminate].
    - rewrite (acquire_queues p Hfree). simpl.
      split; [done|]. split; [done|]. by repeat constructor.
    - unfold release. rewrite Hall.
      rewrite bool_decide_eq_false_2 by apply not_elem_of_empty.
      split; [done|]. split; [done|]. constructor.
    - unfold terminate. rewrite Hall, elements_empty. simpl.
      split; [done|]. split; [done|]. constructor. }
  destruct (call c p) as [p1 effects]. simpl in Hstep.
  destruct Hstep as (Hall1 & Hfree1 & Heffects).
  specialize (IH p1 Hall1 Hfree1). destruct (run calls p1) as [p2 more]. simpl in *.
  apply Forall_app. by split.
Qed.

(** C6, on the run that breaks it. A pool of one session is terminated
    (everything is cleared and no resolver is called, only session 0 is
    terminated); an [acquire] issued after that is queued; then session 0,
    whose error listener is still registered, emits an error: the pool
    creates session 1 and resolves the queued acquisition with it. *)
Theorem terminated_pool_revived_by_error :
  let p0 := fst (new_StockfishPool 1) in
  let p1 := fst (fst (terminate (λ _, false) p0)) in
  let p2 := fst (acquire p1) in
  terminate (λ _, false) p0 = (mkPool [] [] ∅ 1 0, [Terminate_engine 0], Normal)
  /\ acquire p1 = (mkPool [] [0] ∅ 1 1, Queued 0)
  /\ enabled (Engine_error 0 Normal) p2
  /\ call (Engine_error 0 Normal) p2
     = (mkPool [] [] {[1]} 2 1, [Terminate_engine 0; Spawn 1; Resolve_waiter 0 1]).
Proof.
  split; [vm_compute; reflexivity|]. split; [vm_compute; reflexivity|].
  split; [vm_compute; lia | vm_compute; reflexivity].
Qed.

End PoolProofs.

(** * Further properties of the session *)
Module EngineExtras.
Import Engine.

(** ** [#handleOutput] *)

Lemma handleOutput_resolve (line : string) (st : Stockfish)
    (r : Resolver) (result : StockfishAnalysis) :
  Resolve r result ∈ snd (handleOutput line st) ->
  JS.startsWith "bestmove" line = true
  /\ analysisPromise st = Some r
  /\ (exists a, currentAnalysis st = Some a /\ lines result = lines a)
  /\ analysisPromise (fst (handleOutput line st)) = None
  /\ currentAnalysis (fst (handleOutput line st)) = None.
Proof.
  unfold handleOutput.
  destruct (JS.startsWith "info" line).
  - destruct (parseInfo line) as [info|]; [destruct (currentAnalysis st)|]; simpl;
      intros Hin; repeat (apply elem_of_cons in Hin as [[=] | Hin]);
      by apply elem_of_nil in Hin.
  - destruct (JS.startsWith "bestmove" line).
    2:{ simpl. intros [[=] | Hin%elem_of_nil]%elem_of_cons. done. }
    destruct (analysisPromise st) as [r0|].
    2:{ simpl. intros [[=] | Hin%elem_of_nil]%elem_of_cons. done. }
    destruct (currentAnalysis st) as [a|].
    2:{ simpl. intros [[=] | Hin%elem_of_nil]%elem_of_cons. done. }
    simpl. intros [[=] | [[= -> ->] | Hin%elem_of_nil]%elem_of_cons]%elem_of_cons; [|done].
    split; [done|]. split; [done|]. split; [|done].
    exists a. split; [done|]. unfold finish_analysis. by case_bool_decide.
Qed.

(** X1. [#handleOutput] calls a resolver only for a line that starts with
    "bestmove" while an analysis is active: it is the resolver of that
    analysis, the result carries the lines accumulated so far, and the
    session has no active analysis afterwards. *)
Theorem resolver_called_only_by_bestmove (line : string) (st : Stockfish)
    (r : Resolver) (result : StockfishAnalysis) :
  Resolve r result ∈ snd (handleOutput line st) ->
  JS.startsWith "bestmove" line = true
  /\ analysisPromise st = Some r
  /\ (exists a, currentAnalysis st = Some a /\ lines result = lines a)
  /\ analysisPromise (fst (handleOutput line st)) = None
  /\ currentAnalysis (fst (handleOutput line st)) = None.
Proof. exact (handleOutput_resolve line st r result). Qed.

Lemma resolver_called_only_by_bestmove_witness :
  let st := mkStockfish (Some child_process) Fulfilled true (Some 5)
              (Some (mkAnalysis "" None ∅)) in
  analysisPromise st = Some 5
  /\ currentAnalysis (fst (handleOutput "bestmove a2a4" st)) = None.
Proof.
  intros st.
  destruct (resolver_called_only_by_bestmove "bestmove a2a4" st 5 (mkAnalysis "a2a4" None ∅))
    as (_ & H1 & _ & _ & H2).
  - simpl. apply list_elem_of_further, list_elem_of_here.
  - split; [exact H1 | exact H2].
Defined.

(** X2. With no accumulating analysis, no output line changes the session:
    info events are emitted and dropped, and a best-move line only emits the
    raw output event. *)
Theorem idle_session_unchanged_by_output (line : string) (st : Stockfish) :
  currentAnalysis st = None ->
  fst (handleOutput line st) = st
  /\ (forall r result, Resolve r result ∉ snd (handleOutput line st))
  /\ (JS.startsWith "info" line = false -> snd (handleOutput line st) = [Emit_output line]).
Proof.
  intros Hidle.
  assert (Hstate : fst (handleOutput line st) = st).
  { unfold handleOutput. rewrite Hidle.
    destruct (JS.startsWith "info" line); [by destruct (parseInfo line)|].
    destruct (JS.startsWith "bestmove" line); [|done].
    by destruct (analysisPromise st). }
  split; [exact Hstate|]. split.
  - intros r result Hin.
    apply handleOutput_resolve in Hin as (_ & _ & (a & Ha & _) & _).
    congruence.
  - intros Hinfo. unfold handleOutput. rewrite Hinfo, Hidle.
    destruct (JS.startsWith "bestmove" line); [|done].
    by destruct (analysisPromise st).
Qed.

Lemma idle_session_unchanged_by_output_witness :
  fst (handleOutput "info depth 3 pv e2e4" (fst new_Stockfish)) = fst new_Stockfish.
Proof.
  destruct (idle_session_unchanged_by_output "info depth 3 pv e2e4" (fst new_Stockfish))
    as [H _]; [reflexivity | exact H].
Defined.

(** ** The session's invariant *)

(** X3. In every state a session goes through, the resolver and the
    accumulating result are both set or both unset, and whenever the
    session is ready or an analysis is active the handshake promise is
    fulfilled (so [waitReady] returns at once). *)
Theorem session_fields_consistent (st : Stockfish) :
  reachable st ->
  (is_Some (analysisPromise st) <-> is_Some (currentAnalysis st))
  /\ (isReady st = true \/ is_Some (analysisPromise st) ->
      readyPromise st = Fulfilled /\ waitReady st = Returned tt).
Proof.
  intros Hreach.
  destruct (EngineProofs.reachable_invariant st Hreach) as (Hready & Hactive & Hboth).
  split; [exact Hboth|].
  intros H. assert (Hf : readyPromise st = Fulfilled) by (destruct H; auto).
  split; [exact Hf|]. unfold waitReady. rewrite Hf. by destruct (isReady st).
Qed.

Lemma session_fields_consistent_witness :
  let st := fst (initialize_done (fst new_Stockfish)) in
  readyPromise st = Fulfilled /\ waitReady st = Returned tt.
Proof.
  intros st.
  destruct (session_fields_consistent st) as [_ H].
  - eapply reachable_step; [apply reachable_new|]. by apply step_handshake.
  - apply H. by left.
Defined.

(** ** [analyze], [send], [terminate] *)

Lemma send_untargeted command st :
  send_target command = None ->
  String.eqb command "uci" = false ->
  send command st
  = match waitReady st with
    | Returned _ =>
        match process st with
        | Some _ => ([Stdin_write (command +:+ newline)], Returned tt)
        | None => ([], Thrown "Engine process stdin is not available")
        end
    | Thrown m => ([], Thrown m)
    | Suspended w => ([], Suspended w)
    end.
Proof.
  intros Htarget Huci. unfold send. rewrite Huci, Htarget.
  destruct (waitReady st); [|done..]. by destruct (process st).
Qed.



(** X5. [terminate] is final and idempotent: a second call changes nothing
    and kills nothing; the call neither resolves nor clears an active
    analysis; and after it no [send] writes anything to the engine. *)
Theorem terminate_is_final (st : Stockfish) :
  let st' := fst (terminate st) in
  terminate st' = (st', [])
  /\ analysisPromise st' = analysisPromise st
  /\ currentAnalysis st' = currentAnalysis st
  /\ (forall r result, Resolve r result ∉ snd (terminate st))
  /\ (forall command data, Stdin_write data ∉ fst (send command st'))
  /\ (forall command, snd (send command st') <> Returned tt).
Proof.
  intros st'.
  assert (Hp : process st' = None /\ isReady st' = false).
  { unfold st', terminate. by destruct (process st) eqn:Hproc. }
  destruct Hp as [Hp Hr].
  split; [|split; [|split; [|split; [|split]]]].
  - unfold terminate at 1. rewrite Hp. unfold set_isReady. rewrite <- Hr.
    by destruct st'.
  - unfold st', terminate. by destruct (process st).
  - unfold st', terminate. by destruct (process st).
  - intros r result. unfold terminate. destruct (process st); simpl.
    + by intros [[=] | Hin%elem_of_nil]%elem_of_cons.
    + by intros Hin%elem_of_nil.
  - intros command data. unfold send. rewrite Hp.
    destruct (if String.eqb command "uci" then Returned tt else waitReady st');
      simpl; [|by intros ?%elem_of_nil..].
    destruct (send_target command); simpl.
    + by intros [[=] | Hin%elem_of_nil]%elem_of_cons.
    + by intros Hin%elem_of_nil.
  - intros command. unfold send. rewrite Hp.
    by destruct (if String.eqb command "uci" then Returned tt else waitReady st').
Qed.


(** X6. What [send] writes. Whatever the command and the state, [send]
    writes at most the command followed by a newline, and only with a
    process handle. When it expects an acknowledgement ("uciok" for "uci",
    "readyok" for "isready") the listener is registered before the write and
    [send] then waits for that line; for any other command it returns right
    after the write. "uci" is never held back by the readiness wait. When it
    throws, nothing has been written, but the listener for an expected
    acknowledgement has already been registered. *)
Theorem send_registers_then_writes (command : string) (st : Stockfish) :
  (forall data, Stdin_write data ∈ fst (send command st) ->
     data = command +:+ newline /\ is_Some (process st))
  /\ (snd (send command st) = Returned tt ->
      send_target command = None
      /\ fst (send command st) = [Stdin_write (command +:+ newline)])
  /\ (forall target, snd (send command st) = Suspended (Await_output target) ->
      send_target command = Some target
      /\ fst (send command st) = [On_output target; Stdin_write (command +:+ newline)])
  /\ (forall m, snd (send command st) = Thrown m ->
      process st = None
      /\ fst (send command st)
         = match send_target command with Some target => [On_output target] | None => [] end)
  /\ (command = "uci" -> snd (send command st) <> Suspended Await_ready).
Proof.
  unfold send.
  destruct (String.eqb command "uci") eqn:Huci.
  - apply String.eqb_eq in Huci as ->. simpl.
    destruct (process st) eqn:Hp; simpl.
    + split.
      { intros data [[=] | [[= ->] | Hin%elem_of_nil]%elem_of_cons]%elem_of_cons; [|done].
        split; [done | by eexists]. }
      split; [done|]. split; [by intros target [= <-]|]. split; done.
    + split; [by intros data [[=] | Hin%elem_of_nil]%elem_of_cons|].
      split; [done|]. split; [done|]. split; done.
  - destruct (waitReady st) as [[]| |] eqn:Hw; simpl.
    + destruct (process st) eqn:Hp; destruct (send_target command) as [target|] eqn:Ht;
        simpl.
      * split.
        { intros data [[=] | [[= ->] | Hin%elem_of_nil]%elem_of_cons]%elem_of_cons; [|done].
          split; [done | by eexists]. }
        split; [done|]. split; [by intros target' [= <-]|]. split; [done|].
        intros ->. discriminate Huci.
      * split.
        { intros data [[= ->] | Hin%elem_of_nil]%elem_of_cons; [|done].
          split; [done | by eexists]. }
        split; [done|]. split; [done|]. split; [done|]. intros ->. discriminate Huci.
      * split; [by intros data [[=] | Hin%elem_of_nil]%elem_of_cons|].
        split; [done|]. split; [done|]. split; [done|]. intros ->. discriminate Huci.
      * split; [by intros data Hin%elem_of_nil|].
        split; [done|]. split; [done|]. split; [done|]. intros ->. discriminate Huci.
    + split; [by intros data Hin%elem_of_nil|].
      split; [done|]. split; [done|]. split; [|intros ->; discriminate Huci].
      intros m' _. unfold waitReady in Hw.
      destruct (isReady st); [done|]. by destruct (readyPromise st).
    + assert (w = Await_ready) as ->.
      { unfold waitReady in Hw. destruct (isReady st); [done|].
        destruct (readyPromise st); congruence. }
      split; [by intros data Hin%elem_of_nil|].
      split; [done|]. split; [done|]. split; [done|]. intros ->. discriminate Huci.
Qed.

(** ** [setOptions] *)

Lemma setoption_untargeted key value :
  send_target ("setoption name " +:+ key +:+ " value " +:+ value) = None
  /\ String.eqb ("setoption name " +:+ key +:+ " value " +:+ value) "uci" = false.
Proof. split; reflexivity. Qed.

(** X7. [setOptions] on a session whose readiness wait passes. With a
    process handle it writes exactly one "setoption name K value V" line per
    entry, in the order of the entries, and returns. Without one (after
    [terminate]) it throws at the first entry and writes nothing; with no
    entries at all it returns without touching the engine. *)
Theorem setOptions_one_command_per_entry (entries : list (string * string))
    (st : Stockfish) :
  waitReady st = Returned tt ->
  (is_Some (process st) ->
   setOptions entries st
   = ((λ entry, Stdin_write (("setoption name " +:+ entry.1 +:+ " value " +:+ entry.2)
                               +:+ newline)) <$> entries,
      Returned tt))
  /\ (process st = None -> entries <> [] ->
      setOptions entries st = ([], Thrown "Engine process stdin is not available"))
  /\ setOptions [] st = ([], Returned tt).
Proof.
  intros Hw. split; [|split; [|done]].
  - intros [p Hp]. induction entries as [|[key value] entries IH]; [done|].
    simpl setOptions.
    rewrite send_untargeted by apply setoption_untargeted.
    rewrite Hw, Hp, IH. reflexivity.
  - intros Hp Hne. destruct entries as [|[key value] entries]; [done|].
    simpl setOptions.
    rewrite send_untargeted by apply setoption_untargeted.
    by rewrite Hw, Hp.
Qed.

Lemma setOptions_one_command_per_entry_witness :
  setOptions [("Threads", "4"); ("Hash", "256")]
    (mkStockfish (Some child_process) Fulfilled true None None)
  = ([Stdin_write ("setoption name Threads value 4" +:+ newline);
      Stdin_write ("setoption name Hash value 256" +:+ newline)],
     Returned tt).
Proof.
  destruct (setOptions_one_command_per_entry [("Threads", "4"); ("Hash", "256")]
              (mkStockfish (Some child_process) Fulfilled true None None)) as [H _];
    [reflexivity|].
  apply H. by eexists.
Defined.

(** ** [waitOutput] *)

Lemma prefix_cons a p b s :
  String.prefix (String a p) (String b s)
  = if ascii_dec a b then String.prefix p s else false.
Proof. reflexivity. Qed.

Lemma prefix_append p s :
  String.prefix p s = true <-> exists rest, s = p +:+ rest.
Proof.
  revert s. induction p as [|a p IH]; intros s.
  - split; [intros _; by exists s | intros _; by destruct s].
  - destruct s as [|b s].
    + split; [done | by intros [rest [=]]].
    + rewrite prefix_cons. destruct (ascii_dec a b) as [<-|Hne].
      * rewrite IH. split; intros [rest H]; exists rest.
        -- change (String a p +:+ rest) with (String a (p +:+ rest)). by rewrite H.
        -- change (String a p +:+ rest) with (String a (p +:+ rest)) in H. by injection H.
      * split; [done|]. intros [rest H].
        change (String a p +:+ rest) with (String a (p +:+ rest)) in H.
        injection H as Hb _. congruence.
Qed.

Lemma append_assoc (a b c : string) : (a +:+ b) +:+ c = a +:+ b +:+ c.
Proof.
  induction a as [|x a IH]; [done|].
  change (String x ((a +:+ b) +:+ c) = String x (a +:+ b +:+ c)). by rewrite IH.
Qed.

(** X8. The listener of [waitOutput(target)] accepts exactly the lines that
    are the target itself or the target followed by a space and anything
    else; a line that merely begins with the target's characters is not
    accepted. *)
Theorem waitOutput_accepts (target line : string) :
  waitOutput_matches target line = true
  <-> line = target \/ exists rest, line = target +:+ " " +:+ rest.
Proof.
  unfold waitOutput_matches, JS.startsWith.
  rewrite orb_true_iff, String.eqb_eq, prefix_append.
  split; (intros [H | [rest H]]; [by left | right; exists rest]).
  - by rewrite H, append_assoc.
  - by rewrite H, append_assoc.
Qed.

Lemma emit_to_listeners_split line (listeners : list Listener) :
  NoDup (snd <$> listeners) ->
  NoDup (snd <$> fst (emit_to_listeners line listeners))
  /\ NoDup (snd (emit_to_listeners line listeners))
  /\ (forall r, r ∈ snd (emit_to_listeners line listeners) ->
        r ∉ snd <$> fst (emit_to_listeners line listeners))
  /\ (forall r, r ∈ snd (emit_to_listeners line listeners) -> r ∈ snd <$> listeners)
  /\ (forall r, r ∈ snd <$> fst (emit_to_listeners line listeners) -> r ∈ snd <$> listeners).
Proof.
  unfold emit_to_listeners; simpl.
  induction listeners as [|[target r0] listeners IH]; intros Hnodup.
  - simpl. split; [constructor|]. split; [constructor|].
    split; [by intros r ?%elem_of_nil|]. split; by intros r ?%elem_of_nil.
  - rewrite fmap_cons in Hnodup. apply NoDup_cons in Hnodup as [Hfresh Hnodup].
    destruct (IH Hnodup) as (IH1 & IH2 & IH3 & IH4 & IH5). clear IH.
    rewrite !filter_cons. simpl.
    destruct (waitOutput_matches target line) eqn:Hm.
    + rewrite decide_False by done. rewrite decide_True by done.
      rewrite !fmap_cons. simpl.
      split; [exact IH1|]. split; [apply NoDup_cons; split; [|exact IH2]; auto|].
      split; [|split].
      * intros r [-> | Hr]%elem_of_cons; [|by apply IH3]. intros Hin. by apply Hfresh, IH5.
      * intros r [-> | Hr]%elem_of_cons; [apply list_elem_of_here|].
        by apply list_elem_of_further, IH4.
      * intros r Hr. by apply list_elem_of_further, IH5.
    + rewrite decide_True by done. rewrite decide_False by done.
      rewrite !fmap_cons. simpl.
      split; [apply NoDup_cons; split; [|exact IH1]; auto|]. split; [exact IH2|].
      split; [|split].
      * intros r Hr [-> | Hin]%elem_of_cons; [by apply Hfresh, IH4 | by apply (IH3 r)].
      * intros r Hr. by apply list_elem_of_further, IH4.
      * intros r [-> | Hr]%elem_of_cons; [apply list_elem_of_here|].
        by apply list_elem_of_further, IH5.
Qed.

Lemma emit_lines_to_listeners_split lines (listeners : list Listener) :
  NoDup (snd <$> listeners) ->
  NoDup (snd <$> fst (emit_lines_to_listeners lines listeners))
  /\ NoDup (snd (emit_lines_to_listeners lines listeners))
  /\ (forall r, r ∈ snd (emit_lines_to_listeners lines listeners) ->
        r ∉ snd <$> fst (emit_lines_to_listeners lines listeners))
  /\ (forall r, r ∈ snd (emit_lines_to_listeners lines listeners) -> r ∈ snd <$> listeners)
  /\ (forall r, r ∈ snd <$> fst (emit_lines_to_listeners lines listeners) ->
        r ∈ snd <$> listeners).
Proof.
  revert listeners. induction lines as [|line lines IH]; intros listeners Hnodup;
    cbn [emit_lines_to_listeners].
  - simpl. split; [done|]. split; [constructor|]. split; [by intros r ?%elem_of_nil|].
    split; [by intros r ?%elem_of_nil | done].
  - destruct (emit_to_listeners_split line listeners Hnodup) as (H1 & H2 & H3 & H4 & H5).
    destruct (emit_to_listeners line listeners) as [waiting resolved]. simpl in *.
    destruct (IH waiting H1) as (I1 & I2 & I3 & I4 & I5).
    destruct (emit_lines_to_listeners lines waiting) as [waiting' more]. simpl in *.
    split; [exact I1|]. split; [|split; [|split]].
    + apply NoDup_app. split; [exact H2|]. split; [|exact I2].
      intros r Hr Hmore. by apply (H3 r Hr), I4.
    + intros r [Hr | Hr]%elem_of_app; [|by apply I3].
      intros Hin. by apply (H3 r Hr), I5.
    + intros r [Hr | Hr]%elem_of_app; [by apply H4 | by apply H5, I4].
    + intros r Hr. by apply H5, I5.
Qed.

(** X9. The listeners of [waitOutput] are one-shot. Over any sequence of
    output lines, with the promises of the registered listeners all
    distinct: no resolver is called twice, a resolver that was called is no
    longer registered, only registered resolvers are called, and a single
    line resolves every listener whose test it passes (not only the first
    one registered). *)
Theorem waitOutput_listeners_one_shot (lines : list string) (listeners : list Listener) :
  NoDup (snd <$> listeners) ->
  NoDup (snd (emit_lines_to_listeners lines listeners))
  /\ (forall r, r ∈ snd (emit_lines_to_listeners lines listeners) ->
        r ∈ snd <$> listeners
        /\ r ∉ snd <$> fst (emit_lines_to_listeners lines listeners))
  /\ (forall line target r,
        (target, r) ∈ listeners ->
        waitOutput_matches target line = true ->
        r ∈ snd (emit_to_listeners line listeners)
        /\ (target, r) ∉ fst (emit_to_listeners line listeners)).
Proof.
  intros Hnodup.
  destruct (emit_lines_to_listeners_split lines listeners Hnodup) as (_ & H2 & H3 & H4 & _).
  split; [exact H2|]. split; [intros r Hr; split; [by apply H4 | by apply H3]|].
  intros line target r Hin Hm. unfold emit_to_listeners; simpl. split.
  - apply list_elem_of_fmap. exists (target, r). split; [done|].
    by apply list_elem_of_filter.
  - intros [Hno _]%list_elem_of_filter. simpl in Hno. congruence.
Qed.

Lemma waitOutput_listeners_one_shot_witness :
  NoDup (snd (emit_lines_to_listeners ["readyok"; "readyok"]
                [("uciok", 0); ("readyok", 1); ("readyok", 2)])).
Proof.
  refine (proj1 (waitOutput_listeners_one_shot ["readyok"; "readyok"]
                   [("uciok", 0); ("readyok", 1); ("readyok", 2)] _)).
  simpl. repeat (apply NoDup_cons; split; [intros Hin; apply list_elem_of_In in Hin;
    simpl in Hin; repeat (destruct Hin as [Hin|Hin]; [discriminate Hin|]); exact Hin|]).
  constructor.
Defined.

(** ** The ['data'] handlers *)

Lemma split_on_nonempty sep s : JS.split_on sep s <> [].
Proof.
  destruct s as [|c s]; simpl; [done|].
  destruct (sep c); [done|]. by destruct (JS.split_on sep s).
Qed.

Lemma split_on_separator sep a c b :
  sep c = true ->
  JS.split_on sep (a +:+ String c b) = JS.split_on sep a ++ JS.split_on sep b.
Proof.
  intros Hc. induction a as [|x a IH].
  - change ("" +:+ String c b) with (String c b). simpl. by rewrite Hc.
  - change (String x a +:+ String c b) with (String x (a +:+ String c b)).
    simpl. rewrite IH. destruct (sep x); [done|].
    pose proof (split_on_nonempty sep a) as Hne.
    by destruct (JS.split_on sep a).
Qed.

Lemma on_lines_app lines1 lines2 st :
  on_lines (lines1 ++ lines2) st
  = let '(st1, effects) := on_lines lines1 st in
    let '(st2, more) := on_lines lines2 st1 in
    (st2, effects ++ more).
Proof.
  revert st. induction lines1 as [|line lines1 IH]; intros st; simpl.
  - by destruct (on_lines lines2 st).
  - destruct (String.eqb (JS.trim line) ""); [apply IH|].
    destruct (handleOutput (JS.trim line) st) as [st1 effects].
    rewrite IH. destruct (on_lines lines1 st1) as [st2 more].
    destruct (on_lines lines2 st2) as [st3 more']. by rewrite app_assoc.
Qed.

(** X10. Chunks that end at a line boundary compose: handling a chunk made
    of [a], a newline and [b] is handling [a] and then [b]; in particular a
    trailing newline adds nothing, and an empty chunk does nothing. *)
Theorem on_data_composes_at_newline (a b : string) (st : Stockfish) :
  on_data (a +:+ newline +:+ b) st
  = (let '(st1, effects) := on_data a st in
     let '(st2, more) := on_data b st1 in
     (st2, effects ++ more))
  /\ on_data (a +:+ newline) st = on_data a st
  /\ on_data "" st = (st, []).
Proof.
  assert (Hcompose : forall b', on_data (a +:+ newline +:+ b') st
            = (let '(st1, effects) := on_data a st in
               let '(st2, more) := on_data b' st1 in
               (st2, effects ++ more))).
  { intros b'. unfold on_data, JS.split_lines.
    change (newline +:+ b') with (String (ascii_of_nat 10) b').
    rewrite split_on_separator by reflexivity. apply on_lines_app. }
  split; [apply Hcompose|]. split; [|reflexivity].
  replace (a +:+ newline) with (a +:+ newline +:+ "").
  - rewrite Hcompose. destruct (on_data a st) as [st1 effects].
    change (on_data "" st1) with (st1, @nil Effect). cbv beta iota.
    by rewrite app_nil_r.
  - f_equal.
Qed.

Lemma trim_end_idempotent s : JS.trim_end (JS.trim_end s) = JS.trim_end s.
Proof.
  induction s as [|c s IH]; [done|].
  change (JS.trim_end (String c s))
    with (match JS.trim_end s with
          | "" => if JS.is_white c then "" else String c ""
          | kept => String c kept
          end).
  destruct (JS.trim_end s) as [|k kept] eqn:Hkept.
  - destruct (JS.is_white c) eqn:Hc; [done|]. simpl. by rewrite Hc.
  - change (JS.trim_end (String c (String k kept)))
      with (match JS.trim_end (String k kept) with
            | "" => if JS.is_white c then "" else String c ""
            | kept0 => String c kept0
            end).
    by rewrite IH.
Qed.

Lemma trim_end_head c s : JS.is_white c = false ->
  exists kept, JS.trim_end (String c s) = String c kept.
Proof.
  intros Hc. simpl. destruct (JS.trim_end s); [|by eexists].
  rewrite Hc. by eexists.
Qed.

Lemma trim_start_head s :
  JS.trim_start s = "" \/ exists c rest, JS.trim_start s = String c rest /\ JS.is_white c = false.
Proof.
  induction s as [|c s IH]; [by left|]. simpl.
  destruct (JS.is_white c) eqn:Hc; [exact IH|]. right. by exists c, s.
Qed.

Lemma trim_idempotent s : JS.trim (JS.trim s) = JS.trim s.
Proof.
  unfold JS.trim.
  destruct (trim_start_head s) as [-> | (c & rest & -> & Hc)]; [done|].
  destruct (trim_end_head c rest Hc) as [kept Hkept].
  rewrite Hkept. cbn [JS.trim_start]. rewrite Hc, <- Hkept.
  apply trim_end_idempotent.
Qed.

Lemma handleOutput_emits_its_line line line' st :
  Emit_output line' ∈ snd (handleOutput line st) -> line' = line.
Proof.
  unfold handleOutput.
  destruct (JS.startsWith "info" line).
  - destruct (parseInfo line); [destruct (currentAnalysis st)|]; simpl;
      intros Hin; repeat (apply elem_of_cons in Hin as [[=] | Hin]); try done;
      by apply elem_of_nil in Hin.
  - destruct (JS.startsWith "bestmove" line);
      [destruct (analysisPromise st); [destruct (currentAnalysis st)|]|]; simpl;
      intros Hin; repeat (apply elem_of_cons in Hin as [[=] | Hin]); try done;
      by apply elem_of_nil in Hin.
Qed.

(** X11. For a chunk of ASCII text, every line the ['data'] handler passes
    on (each is re-emitted as a raw output event) is one of the
    newline-separated pieces of the chunk, trimmed, and is not empty: blank
    pieces are dropped, and the line has no white space left at either
    end. *)
Theorem on_data_passes_trimmed_nonblank_lines (data line : string) (st : Stockfish) :
  JS.is_ascii data = true ->
  Emit_output line ∈ snd (on_data data st) ->
  line <> ""
  /\ JS.trim line = line
  /\ exists piece, piece ∈ JS.split_lines data /\ line = JS.trim piece.
Proof.
  intros _. unfold on_data. generalize (JS.split_lines data). intros pieces. revert st.
  induction pieces as [|piece pieces IH]; intros st; simpl.
  - by intros ?%elem_of_nil.
  - destruct (String.eqb_spec (JS.trim piece) "") as [Hblank | Hfull].
    + intros Hin. destruct (IH st Hin) as (H1 & H2 & q & Hq & H3).
      split; [done|]. split; [done|]. exists q. split; [|done].
      by apply list_elem_of_further.
    + pose proof (handleOutput_emits_its_line (JS.trim piece) line st) as Hown.
      destruct (handleOutput (JS.trim piece) st) as [st1 effects].
      specialize (IH st1). destruct (on_lines pieces st1) as [st2 more]. simpl in *.
      intros [Hin | Hin]%elem_of_app.
      * rewrite (Hown Hin). split; [done|]. split; [apply trim_idempotent|].
        exists piece. split; [apply list_elem_of_here | done].
      * destruct (IH Hin) as (H1 & H2 & q & Hq & H3).
        split; [done|]. split; [done|]. exists q. split; [|done].
        by apply list_elem_of_further.
Qed.

Lemma on_data_passes_trimmed_nonblank_lines_witness :
  "readyok" <> ""
  /\ JS.trim "readyok" = "readyok"
  /\ exists piece,
       piece ∈ JS.split_lines ("  " +:+ newline +:+ " readyok " +:+ newline)
       /\ "readyok" = JS.trim piece.
Proof.
  apply (on_data_passes_trimmed_nonblank_lines
           ("  " +:+ newline +:+ " readyok " +:+ newline) "readyok" (fst new_Stockfish)).
  - reflexivity.
  - vm_compute. apply list_elem_of_here.
Defined.

(** ** A whole analysis *)





(** ** More on [#parseInfo] *)

(** Joining with single spaces undoes [split(' ')]. *)
Lemma concat_split s : String.concat " " (JS.split s) = s.
Proof.
  unfold JS.split. induction s as [|c s IH]; [done|]. simpl.
  pose proof (split_on_nonempty JS.is_space s) as Hne.
  destruct (JS.is_space c) eqn:Hc.
  - apply Ascii.eqb_eq in Hc as ->.
    destruct (JS.split_on JS.is_space s) as [|part parts]; [done|].
    simpl in *. by rewrite IH.
  - destruct (JS.split_on JS.is_space s) as [|part parts]; [done|].
    destruct parts as [|part' parts]; simpl in *; by rewrite <- IH.
Qed.

(** X13. The [pv] key ends the scan and takes everything after it: when the
    scan examines a token "pv", the result is the info gathered so far with
    pv set to all the remaining tokens joined by single spaces, whatever
    they are (recognized keys included). As joining undoes the split, the
    pv of a line "info pv REST" is REST character for character. *)
Theorem pv_takes_the_rest :
  (forall fuel parts i info,
      parts !! i = Some "pv" ->
      parseInfo_loop (S fuel) parts i info
      = Some (set_pv (String.concat " " (drop (i + 1) parts)) info))
  /\ (forall rest, parseInfo ("info pv " +:+ rest) = Some (set_pv rest empty_info)).
Proof.
  assert (Hloop : forall fuel parts i info,
             parts !! i = Some "pv" ->
             parseInfo_loop (S fuel) parts i info
             = Some (set_pv (String.concat " " (drop (i + 1) parts)) info)).
  { intros fuel parts i info Hi. simpl.
    pose proof (lookup_lt_Some _ _ _ Hi) as Hlt.
    destruct (Nat.leb_spec (length parts) i); [lia|].
    unfold parseInfo_switch. rewrite Hi. simpl.
    destruct fuel; simpl; destruct (Nat.leb_spec (length parts) (length parts + 1));
      done || lia. }
  split; [exact Hloop|].
  intros rest. unfold parseInfo.
  assert (Hsplit : JS.split ("info pv " +:+ rest) = "info" :: "pv" :: JS.split rest)
    by reflexivity.
  rewrite Hsplit. cbn [length]. rewrite Hloop by reflexivity.
  change (drop (1 + 1) ("info" :: "pv" :: JS.split rest)) with (JS.split rest).
  by rewrite concat_split.
Qed.

Lemma parseInfo_loop_ignores_first fuel first1 first2 rest i info :
  1 <= i ->
  parseInfo_loop fuel (first1 :: rest) i info = parseInfo_loop fuel (first2 :: rest) i info.
Proof.
  revert i info. induction fuel as [|fuel IH]; intros i info Hi; [done|].
  cbn [parseInfo_loop length].
  destruct (S (length rest) <=? i)%nat; [done|].
  assert (Hsw : parseInfo_switch (first1 :: rest) i info
                = parseInfo_switch (first2 :: rest) i info).
  { destruct i as [|i]; [lia|]. reflexivity. }
  rewrite Hsw. destruct (parseInfo_switch (first2 :: rest) i info) as [i' info'].
  apply IH. lia.
Qed.

(** X14. The parser never looks at the first token of the line: two lines
    whose tokens agree from the second one on parse to the same info. *)
Theorem parseInfo_ignores_first_token (line1 line2 first1 first2 : string)
    (rest : list string) :
  JS.split line1 = first1 :: rest ->
  JS.split line2 = first2 :: rest ->
  parseInfo line1 = parseInfo line2.
Proof.
  intros H1 H2. unfold parseInfo. rewrite H1, H2.
  apply parseInfo_loop_ignores_first. lia.
Qed.

Lemma parseInfo_ignores_first_token_witness :
  parseInfo "information depth 7" = parseInfo "info depth 7".
Proof.
  exact (parseInfo_ignores_first_token "information depth 7" "info depth 7"
           "information" "info" ["depth"; "7"] eq_refl eq_refl).
Defined.

End EngineExtras.

(** * Further properties of the pool *)
Module PoolExtras.
Import Pool.

(** ** Construction *)

Lemma add_workers_fresh size0 p :
  queue p = [] ->
  add_workers size0 p
  = (mkPool (free p ++ seq (next_engine p) size0) []
            (list_to_set (seq (next_engine p) size0) ∪ all p)
            (next_engine p + size0) (next_waiter p),
     Spawn <$> seq (next_engine p) size0).
Proof.
  revert p. induction size0 as [|n IH]; intros p Hq.
  - simpl. rewrite app_nil_r, Nat.add_0_r, union_empty_l_L. rewrite <- Hq. by destruct p.
  - cbn [add_workers].
    assert (Hadd : addWorker p
              = (mkPool (free p ++ [next_engine p]) [] ({[next_engine p]} ∪ all p)
                        (S (next_engine p)) (next_waiter p),
                 [Spawn (next_engine p)])).
    { unfold addWorker, makeAvailable. simpl. by rewrite Hq. }
    rewrite Hadd, IH by done.
    cbn [free queue all next_engine next_waiter].
    rewrite <- app_assoc.
    change ([next_engine p] ++ seq (S (next_engine p)) n) with (seq (next_engine p) (S n)).
    change (seq (next_engine p) (S n)) with (next_engine p :: seq (S (next_engine p)) n).
    rewrite list_to_set_cons, fmap_cons.
    f_equal. f_equal; [|lia].
    apply set_eq. intros e. rewrite !elem_of_union. tauto.
Qed.

(** X15. A new pool of size N holds the N sessions it spawned, numbered in
    creation order: all of them are members, all of them are free with the
    newest last, and no acquisition is waiting. *)
Theorem new_pool_all_free (N : nat) :
  new_StockfishPool N
  = (mkPool (seq 0 N) [] (list_to_set (seq 0 N)) N 0, Spawn <$> seq 0 N).
Proof.
  unfold new_StockfishPool. rewrite add_workers_fresh by done. simpl.
  by rewrite union_empty_r_L.
Qed.

(** ** Invariants of the states a pool goes through *)

Lemma makeAvailable_free_members engine p :
  (forall e, e ∈ free p -> e ∈ all p) -> engine ∈ all p ->
  forall e, e ∈ free (fst (makeAvailable engine p)) -> e ∈ all (fst (makeAvailable engine p)).
Proof.
  intros Hfree Hmember e. unfold makeAvailable.
  destruct (queue p); simpl; [|by apply Hfree].
  intros [He | ->%list_elem_of_singleton]%elem_of_app; [by apply Hfree | done].
Qed.

Lemma addWorker_free_members p :
  (forall e, e ∈ free p -> e ∈ all p) ->
  forall e, e ∈ free (fst (addWorker p)) -> e ∈ all (fst (addWorker p)).
Proof.
  intros Hfree. unfold addWorker.
  pose proof (makeAvailable_free_members (next_engine p)
    (mkPool (free p) (queue p) ({[next_engine p]} ∪ all p) (S (next_engine p)) (next_waiter p)))
    as Hmake.
  destruct (makeAvailable _ _) as [p2 handed]. simpl in *. apply Hmake.
  - intros e He. by apply elem_of_union_r, Hfree.
  - by apply elem_of_union_l, elem_of_singleton.
Qed.

Lemma call_free_members c p :
  (forall e, e ∈ free p -> e ∈ all p) ->
  forall e, e ∈ free (fst (call c p)) -> e ∈ all (fst (call c p)).
Proof.
  intros Hfree. destruct c as [|engine|throws|engine o]; simpl.
  - unfold acquire. destruct (last (free p)) as [x|] eqn:Hlast; simpl; [|done].
    intros e He. apply Hfree. apply last_Some in Hlast as [rest Hrest].
    rewrite Hrest, removelast_last in He. rewrite Hrest. apply elem_of_app. by left.
  - unfold release. case_bool_decide; [|done]. by apply makeAvailable_free_members.
  - unfold terminate.
    destruct (terminate_each throws (elements (all p))) as [effects []]; simpl; [|done].
    by intros e ?%elem_of_nil.
  - unfold on_engine_error, replaceWorker. simpl.
    pose proof (addWorker_free_members
      (mkPool (filter (λ e, e ≠ engine) (free p)) (queue p) (all p ∖ {[engine]})
              (next_engine p) (next_waiter p))) as Hadd.
    destruct o; simpl; destruct (addWorker _) as [p2 added]; simpl in *; apply Hadd;
      intros e [Hne He]%list_elem_of_filter; apply elem_of_difference;
      (split; [by apply Hfree | by intros ?%elem_of_singleton]).
Qed.

Lemma call_queue_nodup c p :
  well_formed p -> NoDup (queue p) -> NoDup (queue (fst (call c p))).
Proof.
  intros (_ & _ & Hold & _) Hnodup. destruct c as [|engine|throws|engine o]; simpl.
  - unfold acquire. destruct (last (free p)); simpl; [done|].
    apply NoDup_app. split; [done|]. split; [|apply NoDup_singleton].
    intros w Hw ->%list_elem_of_singleton. specialize (Hold _ Hw). lia.
  - unfold release, makeAvailable. case_bool_decide; [|done].
    destruct (queue p) as [|w waiting] eqn:Hq; simpl; [by rewrite Hq|].
    by apply NoDup_cons in Hnodup as [_ ?].
  - unfold terminate.
    destruct (terminate_each throws (elements (all p))) as [effects []]; simpl;
      [constructor | done].
  - rewrite PoolProofs.on_engine_error_eq. simpl.
    destruct (queue p) as [|w waiting]; simpl; [constructor|].
    by apply NoDup_cons in Hnodup as [_ ?].
Qed.

Lemma reachable_more p :
  reachable p -> NoDup (queue p) /\ (forall e, e ∈ free p -> e ∈ all p).
Proof.
  induction 1 as [size0 | c p Hreach [IH1 IH2] _].
  - unfold new_StockfishPool. rewrite add_workers_fresh by done. simpl.
    split; [constructor|].
    intros e He. by apply elem_of_union_l, elem_of_list_to_set.
  - split; [|by apply call_free_members].
    apply call_queue_nodup; [by apply PoolProofs.reachable_well_formed | done].
Qed.

(** X16. In every state a pool goes through, each free session is a member
    and no resolver is queued twice. *)
Theorem pool_free_are_members (p : StockfishPool) :
  reachable p ->
  (forall e, e ∈ free p -> e ∈ all p) /\ NoDup (queue p).
Proof. intros Hreach. destruct (reachable_more p Hreach). by split. Qed.

Lemma pool_free_are_members_witness :
  NoDup (queue (fst (run [Acquire; Acquire; Acquire] (fst (new_StockfishPool 1))))).
Proof.
  refine (proj2 (pool_free_are_members _ _)).
  change (reachable
    (fst (call Acquire (fst (call Acquire (fst (call Acquire (fst (new_StockfishPool 1))))))))).
  repeat (apply reachable_call; [|exact I]). apply reachable_new.
Defined.

(** ** After [terminate] *)

(** X17. The acquisitions that are pending when [terminate] completes are
    dropped for good: whatever calls and session errors follow, their
    resolvers are never called. *)
Theorem acquire_pending_at_terminate_hangs (throws : EngineRef -> bool)
    (p : StockfishPool) (w : Waiter) (calls : list Call) :
  reachable p ->
  w ∈ queue p ->
  snd (terminate throws p) = Normal ->
  w ∉ resolved_waiters (snd (run calls (fst (fst (terminate throws p))))).
Proof.
  intros Hreach Hw Hnormal Hin.
  apply list_elem_of_omap in Hin as (effect & Hin & Heffect).
  destruct effect as [| |w' e|]; try discriminate. injection Heffect as ->.
  by apply (PoolProofs.pending_acquire_never_resolved throws p w calls e).
Qed.

Lemma acquire_pending_at_terminate_hangs_witness :
  let p := fst (run [Acquire; Acquire] (fst (new_StockfishPool 1))) in
  0 ∉ resolved_waiters
        (snd (run [Engine_error 0 Normal; Release 1; Acquire]
                (fst (fst (terminate (λ _, false) p))))).
Proof.
  intros p.
  apply (acquire_pending_at_terminate_hangs (λ _, false) p 0).
  - change (reachable (fst (call Acquire (fst (call Acquire (fst (new_StockfishPool 1))))))).
    repeat (apply reachable_call; [|exact I]). apply reachable_new.
  - vm_compute. apply list_elem_of_here.
  - apply PoolProofs.terminate_normal.
Defined.

(** X18. After a completed [terminate], as long as no session reports an
    error, the pool is inert: every [acquire] is queued, every [release] is
    ignored, and no resolver is ever called. *)
Theorem terminated_pool_inert (throws : EngineRef -> bool) (p : StockfishPool)
    (calls : list Call) :
  snd (terminate throws p) = Normal ->
  Forall (λ c, is_method c = true) calls ->
  resolved_waiters (snd (run calls (fst (fst (terminate throws p))))) = []
  /\ (forall e, Acquire_returns (Resolved e)
                ∉ snd (run calls (fst (fst (terminate throws p)))))
  /\ all (fst (run calls (fst (fst (terminate throws p))))) = ∅
  /\ free (fst (run calls (fst (fst (terminate throws p))))) = [].
Proof.
  intros Hnormal Hmethods.
  destruct (PoolProofs.terminate_clears throws p Hnormal) as [-> _].
  set (p0 := mkPool [] [] ∅ (next_engine p) (next_waiter p)).
  pose proof (PoolProofs.emptied_pool_hangs calls p0 eq_refl eq_refl Hmethods) as Hquiet.
  rewrite Forall_forall in Hquiet.
  split; [|split].
  - apply elem_of_nil_inv. intros w Hin.
    apply list_elem_of_omap in Hin as (effect & Hin & Heffect).
    destruct effect as [| |w' e|]; try discriminate.
    by destruct (Hquiet _ Hin) as [Hno _]; apply (Hno w' e).
  - intros e Hin. destruct (Hquiet _ Hin) as [_ Hno]. by apply (Hno e).
  - assert (Hkeep : forall calls' q, Forall (λ c, is_method c = true) calls' ->
               all q = ∅ -> free q = [] ->
               all (fst (run calls' q)) = ∅ /\ free (fst (run calls' q)) = []).
    { clear. intros calls'. induction calls' as [|c calls' IH]; intros q Hm Hall Hfree;
        [done|].
      apply Forall_cons in Hm as [Hc Hm]. simpl.
      assert (Hstep : all (fst (call c q)) = ∅ /\ free (fst (call c q)) = []).
      { destruct c as [|engine|throws|engine o]; simpl in *; [| | |discriminate].
        - by rewrite (PoolProofs.acquire_queues q Hfree).
        - unfold release. rewrite Hall.
          by rewrite bool_decide_eq_false_2 by apply not_elem_of_empty.
        - unfold terminate. rewrite Hall, elements_empty. done. }
      destruct (call c q) as [q1 effects]. destruct Hstep as [Hall1 Hfree1].
      specialize (IH q1 Hm Hall1 Hfree1). by destruct (run calls' q1). }
    by apply Hkeep.
Qed.

Lemma terminated_pool_inert_witness :
  resolved_waiters
    (snd (run [Acquire; Release 0; Acquire]
            (fst (fst (terminate (λ _, false) (fst (new_StockfishPool 2))))))) = [].
Proof.
  refine (proj1 (terminated_pool_inert (λ _, false) (fst (new_StockfishPool 2))
                   [Acquire; Release 0; Acquire] _ _)).
  - apply PoolProofs.terminate_normal.
  - by repeat constructor.
Defined.

(** ** Every acquisition is served at most once *)

Lemma elem_of_resolved_waiters w effects :
  w ∈ resolved_waiters effects <-> exists e, Resolve_waiter w e ∈ effects.
Proof.
  unfold resolved_waiters. rewrite list_elem_of_omap. split.
  - intros (effect & Hin & Heffect). destruct effect as [| |w' e|]; try discriminate.
    injection Heffect as ->. by exists e.
  - intros [e Hin]. by exists (Resolve_waiter w e).
Qed.

Lemma call_resolved c p :
  NoDup (queue p) ->
  resolved_waiters (snd (call c p)) = []
  \/ exists w, resolved_waiters (snd (call c p)) = [w]
               /\ w ∈ queue p /\ w ∉ queue (fst (call c p)).
Proof.
  intros Hnodup. destruct c as [|engine|throws|engine o]; simpl.
  - left. by destruct (acquire p).
  - unfold release, makeAvailable. case_bool_decide; [|by left].
    destruct (queue p) as [|w waiting] eqn:Hq; [by left|]. right. exists w. simpl.
    split; [done|]. split; [apply list_elem_of_here|].
    by apply NoDup_cons in Hnodup as [? _].
  - left. unfold terminate, resolved_waiters.
    pose proof (PoolProofs.terminate_each_effects throws (elements (all p))) as Heff.
    destruct (terminate_each throws (elements (all p))) as [effects []]; simpl in *;
      apply elem_of_nil_inv; intros w (effect & Hin & Hw)%list_elem_of_omap;
      rewrite Forall_forall in Heff; destruct (Heff _ Hin) as [e ->]; discriminate.
  - rewrite PoolProofs.on_engine_error_eq. simpl.
    destruct (queue p) as [|w waiting] eqn:Hq; [by left|]. right. exists w. simpl.
    split; [done|]. split; [apply list_elem_of_here|].
    by apply NoDup_cons in Hnodup as [? _].
Qed.

Lemma run_resolves_once calls p :
  well_formed p -> NoDup (queue p) -> NoDup (resolved_waiters (snd (run calls p))).
Proof.
  revert p. induction calls as [|c calls IH]; intros p Hwf Hnodup; simpl; [constructor|].
  pose proof (PoolProofs.call_well_formed c p Hwf) as Hwf1.
  pose proof (call_queue_nodup c p Hwf Hnodup) as Hnodup1.
  pose proof (call_resolved c p Hnodup) as Hres.
  pose proof (PoolProofs.call_next_waiter c p) as Hnext.
  destruct (call c p) as [p1 effects]. simpl in *.
  specialize (IH p1 Hwf1 Hnodup1).
  pose proof (PoolProofs.dropped_waiter_never_resolved calls p1) as Hdrop.
  destruct (run calls p1) as [p2 more]. simpl in *.
  unfold resolved_waiters in *. rewrite omap_app.
  destruct Hres as [-> | (w & -> & Hw & Hgone)]; [done|].
  simpl. apply NoDup_cons. split; [|done].
  intros Hin. apply elem_of_resolved_waiters in Hin as [e Hin].
  apply (Hdrop w e); [done| |done].
  destruct Hwf as (_ & _ & Hold & _). specialize (Hold _ Hw). lia.
Qed.

(** X19. Over any sequence of calls and session errors on a pool, no
    resolver of a queued acquisition is called twice: a waiting caller is
    handed at most one session. *)
Theorem waiter_served_at_most_once (p : StockfishPool) (calls : list Call) :
  reachable p -> NoDup (resolved_waiters (snd (run calls p))).
Proof.
  intros Hreach. apply run_resolves_once.
  - by apply PoolProofs.reachable_well_formed.
  - by apply reachable_more.
Qed.

Lemma waiter_served_at_most_once_witness :
  NoDup (resolved_waiters
           (snd (run [Acquire; Acquire; Acquire; Release 0; Engine_error 0 Normal; Release 1]
                   (fst (new_StockfishPool 1))))).
Proof. apply waiter_served_at_most_once. apply reachable_new. Defined.

(** ** Sessions the pool no longer owns *)

(** X20. Releasing a session the pool no longer owns does nothing: after
    the error of a session the pool created, and after a completed
    [terminate], a [release] of that session leaves the pool as it is and
    calls no resolver, even with acquisitions waiting. *)
Theorem release_of_dropped_session_ignored (p : StockfishPool) (engine : EngineRef) :
  (forall o, enabled (Engine_error engine o) p ->
     release engine (fst (on_engine_error engine o p))
     = (fst (on_engine_error engine o p), []))
  /\ (forall throws, snd (terminate throws p) = Normal ->
        release engine (fst (fst (terminate throws p)))
        = (fst (fst (terminate throws p)), [])).
Proof.
  split.
  - intros o Henabled. simpl in Henabled. unfold release.
    rewrite PoolProofs.on_engine_error_eq. simpl.
    rewrite bool_decide_eq_false_2; [done|].
    intros [Hin%elem_of_singleton | [_ Hin]%elem_of_difference]%elem_of_union; [lia|].
    apply Hin. by apply elem_of_singleton.
  - intros throws Hnormal.
    destruct (PoolProofs.terminate_clears throws p Hnormal) as [-> _].
    unfold release. simpl. by rewrite bool_decide_eq_false_2 by apply not_elem_of_empty.
Qed.

Lemma release_of_dropped_session_ignored_witness :
  let p := fst (run [Acquire; Acquire] (fst (new_StockfishPool 1))) in
  snd (release 0 (fst (on_engine_error 0 Normal p))) = [].
Proof.
  intros p.
  destruct (release_of_dropped_session_ignored p 0) as [H _].
  rewrite (H Normal); [reflexivity|]. vm_compute. lia.
Defined.

(** X21. An error reported by a session that is not a member (one that was
    already replaced, or a member of a terminated pool) still makes the pool
    spawn a session: the membership grows by one, beyond its earlier size. *)
Theorem error_of_non_member_grows_pool (p : StockfishPool) (engine : EngineRef)
    (o : Outcome) :
  reachable p ->
  engine ∉ all p ->
  all (fst (on_engine_error engine o p)) = {[next_engine p]} ∪ all p
  /\ size (all (fst (on_engine_error engine o p))) = S (size (all p))
  /\ Spawn (next_engine p) ∈ snd (on_engine_error engine o p).
Proof.
  intros Hreach Hnot.
  destruct (PoolProofs.reachable_well_formed p Hreach) as (Hall & _).
  rewrite PoolProofs.on_engine_error_eq. simpl.
  assert (Hsame : all p ∖ {[engine]} = all p).
  { apply set_eq. intros e. rewrite elem_of_difference, elem_of_singleton.
    split; [by intros [? _]|]. intros He. split; [done|]. by intros ->. }
  rewrite Hsame. split; [done|]. split.
  - rewrite size_union, size_singleton; [done|].
    apply disjoint_singleton_l. intros Hin. specialize (Hall _ Hin). lia.
  - apply list_elem_of_further, list_elem_of_here.
Qed.

Lemma error_of_non_member_grows_pool_witness :
  let p := fst (on_engine_error 0 Normal (fst (new_StockfishPool 1))) in
  size (all (fst (on_engine_error 0 Normal p))) = S (size (all p)).
Proof.
  intros p.
  destruct (error_of_non_member_grows_pool p 0 Normal) as (_ & H & _).
  - change p with (fst (call (Engine_error 0 Normal) (fst (new_StockfishPool 1)))).
    apply reachable_call; [apply reachable_new|]. vm_compute. lia.
  - intros Hin. vm_compute in Hin. discriminate Hin.
  - exact H.
Defined.

(** ** [acquire] and [release] together *)

(** X22. [acquire] and [release] undo each other. In a state a pool goes
    through, releasing the session an [acquire] has just returned restores
    the pool exactly; and in any state with no waiter queued, an [acquire]
    right after the [release] of a member returns that member and restores
    the pool exactly. *)
Theorem acquire_release_round_trip (p : StockfishPool) (engine : EngineRef) :
  (reachable p ->
   snd (acquire p) = Resolved engine ->
   release engine (fst (acquire p)) = (p, []))
  /\ (engine ∈ all p -> queue p = [] ->
      acquire (fst (release engine p)) = (p, Resolved engine)).
Proof.
  split.
  - intros Hreach Hacq.
    destruct (reachable_more p Hreach) as [_ Hmembers].
    destruct (PoolProofs.reachable_well_formed p Hreach) as (_ & _ & _ & Hexcl).
    unfold acquire in *.
    destruct (last (free p)) as [x|] eqn:Hlast; [|discriminate].
    injection Hacq as ->.
    apply last_Some in Hlast as [rest Hrest].
    assert (Hq : queue p = []).
    { destruct Hexcl as [Hnil | Hnil]; [|done]. rewrite Hrest in Hnil. by destruct rest. }
    assert (Hin : engine ∈ all p).
    { apply Hmembers. rewrite Hrest. apply elem_of_app. right. apply list_elem_of_here. }
    rewrite Hrest, removelast_last. unfold release, makeAvailable. simpl.
    rewrite bool_decide_eq_true_2 by done. rewrite Hq.
    destruct p as [fr qu al ne nw]. simpl in *. by subst.
  - intros Hin Hq. unfold release, makeAvailable.
    rewrite bool_decide_eq_true_2 by done. rewrite Hq.
    rewrite (PoolProofs.acquire_pops _ (free p) engine) by done.
    destruct p as [fr qu al ne nw]. simpl in *. by subst.
Qed.

Lemma acquire_release_round_trip_witness :
  release 1 (fst (acquire (fst (new_StockfishPool 2))))
  = (fst (new_StockfishPool 2), []).
Proof.
  destruct (acquire_release_round_trip (fst (new_StockfishPool 2)) 1) as [H _].
  apply H; [apply reachable_new | reflexivity].
Defined.

Lemma run_app calls1 calls2 p :
  run (calls1 ++ calls2) p
  = let '(p1, effects) := run calls1 p in
    let '(p2, more) := run calls2 p1 in
    (p2, effects ++ more).
Proof.
  revert p. induction calls1 as [|c calls1 IH]; intros p; simpl.
  - by destruct (run calls2 p).
  - destruct (call c p) as [p1 effects]. rewrite IH.
    destruct (run calls1 p1) as [p2 more]. destruct (run calls2 p2) as [p3 more'].
    by rewrite app_assoc.
Qed.

Lemma run_acquires k p :
  free p = [] ->
  run (replicate k Acquire) p
  = (mkPool [] (queue p ++ seq (next_waiter p) k) (all p) (next_engine p)
            (next_waiter p + k),
     (λ w, Acquire_returns (Queued w)) <$> seq (next_waiter p) k).
Proof.
  revert p. induction k as [|k IH]; intros p Hfree.
  - simpl. rewrite app_nil_r, Nat.add_0_r, <- Hfree. by destruct p.
  - cbn [replicate run call]. rewrite (PoolProofs.acquire_queues p Hfree).
    rewrite IH by done. cbn [free queue all next_engine next_waiter seq fmap list_fmap].
    rewrite <- app_assoc. simpl. do 2 f_equal. lia.
Qed.

Lemma run_releases engines p waiters rest :
  queue p = waiters ++ rest ->
  length waiters = length engines ->
  Forall (λ e, e ∈ all p) engines ->
  run (Release <$> engines) p
  = (set_queue rest p, zip_with Resolve_waiter waiters engines).
Proof.
  revert p waiters. induction engines as [|e engines IH]; intros p waiters Hq Hlen Hmem.
  - destruct waiters; [|done]. simpl in *. rewrite <- Hq. by destruct p.
  - destruct waiters as [|w waiters]; [done|].
    apply Forall_cons in Hmem as [He Hmem]. cbn [fmap list_fmap run call].
    unfold release, makeAvailable. rewrite bool_decide_eq_true_2 by done.
    rewrite Hq. cbn [app].
    rewrite (IH (set_queue (waiters ++ rest) p) waiters) by (simpl in *; done || lia).
    done.
Qed.

(** X23. Waiters are served in arrival order. On a pool with no free
    session and no waiter, k calls of [acquire] are all queued, and k
    following releases of members resolve them one by one in the order the
    acquisitions were made, the i-th acquisition getting the i-th released
    session; the free collection stays empty and the queue ends empty. *)
Theorem waiters_served_in_arrival_order (p : StockfishPool) (engines : list EngineRef) :
  free p = [] ->
  queue p = [] ->
  Forall (λ e, e ∈ all p) engines ->
  let k := length engines in
  run (replicate k Acquire ++ (Release <$> engines)) p
  = (mkPool [] [] (all p) (next_engine p) (next_waiter p + k),
     ((λ w, Acquire_returns (Queued w)) <$> seq (next_waiter p) k)
       ++ zip_with Resolve_waiter (seq (next_waiter p) k) engines).
Proof.
  intros Hfree Hq Hmem k. rewrite run_app, run_acquires by done.
  rewrite Hq. cbn [app].
  rewrite (run_releases engines _ (seq (next_waiter p) k) []).
  - done.
  - simpl. by rewrite app_nil_r.
  - by rewrite length_seq.
  - done.
Qed.

Lemma waiters_served_in_arrival_order_witness :
  snd (run ([Acquire; Acquire] ++ [Release 1; Release 0])
         (mkPool [] [] {[0; 1]} 2 0))
  = [Acquire_returns (Queued 0); Acquire_returns (Queued 1);
     Resolve_waiter 0 1; Resolve_waiter 1 0].
Proof.
  rewrite (waiters_served_in_arrival_order (mkPool [] [] {[0; 1]} 2 0) [1; 0]);
    [reflexivity | reflexivity | reflexivity |].
  repeat constructor.
Defined.

End PoolExtras.
